(** * Arkadi Clean front-end behaviour (js/main.js): a shallow embedding

  The script is a set of independent DOM-event wrappers.  Each class of
  main.js becomes a module below; the DOM state a handler reads or writes
  becomes a record that is threaded explicitly through the handler.

  Part I holds the embedding, Part II the properties the specification
  states, Part III further properties of the code. *)

From Stdlib Require Import ZArith QArith Qround Lia Lqa DecimalString.
From stdpp Require Import gmap strings list pretty.

Set Default Proof Using "Type".
Set Warnings "-clear-no-such-hyp".
Local Open Scope Q_scope.

(* ===================================================================== *)
(** * Part I.  The embedding                                              *)
(* ===================================================================== *)

(** ** JavaScript numbers

  A JavaScript number is an IEEE double.  The three special values are
  kept, since comparisons, [Math.min]/[Math.max] and truthiness treat them
  specially.  A finite double is read as the rational it denotes, and the
  two zeros are identified.  Comparisons, [Math.min], [Math.max] and
  negation are exact on doubles, so they are exact here.  Sums, products
  and quotients are rounded to the nearest double by the machine and left
  unrounded here: [add], [mul] and [div] give the machine's result when
  the exact one is a double (as for sums and differences of small
  integers), and stand for it up to that rounding otherwise. *)
Module JS.

Inductive num : Type :=
| NaN
| NegInf
| Fin (q : Q)
| PosInf.

Definition Qltb (x y : Q) : bool := negb (Qle_bool y x).

(** [a < b] *)
Definition lt (a b : num) : bool :=
  match a, b with
  | NaN, _ | _, NaN => false
  | _, NegInf => false
  | NegInf, _ => true
  | PosInf, _ => false
  | Fin _, PosInf => true
  | Fin x, Fin y => Qltb x y
  end.

(** [a > b] *)
Definition gt (a b : num) : bool := lt b a.

(** [a >= b] *)
Definition ge (a b : num) : bool :=
  match a, b with
  | NaN, _ | _, NaN => false
  | _, _ => negb (lt a b)
  end.

(** [Math.min(a, b)]: NaN if either argument is NaN, else the lesser. *)
Definition Math_min (a b : num) : num :=
  match a, b with
  | NaN, _ | _, NaN => NaN
  | _, _ => if lt b a then b else a
  end.

(** [Math.max(a, b)]: NaN if either argument is NaN, else the greater. *)
Definition Math_max (a b : num) : num :=
  match a, b with
  | NaN, _ | _, NaN => NaN
  | _, _ => if lt a b then b else a
  end.

Definition neg (a : num) : num :=
  match a with
  | NaN => NaN
  | NegInf => PosInf
  | PosInf => NegInf
  | Fin x => Fin (- x)
  end.

(** [a + b] *)
Definition add (a b : num) : num :=
  match a, b with
  | NaN, _ | _, NaN => NaN
  | PosInf, NegInf | NegInf, PosInf => NaN
  | PosInf, _ | _, PosInf => PosInf
  | NegInf, _ | _, NegInf => NegInf
  | Fin x, Fin y => Fin (x + y)
  end.

(** [a - b] *)
Definition sub (a b : num) : num := add a (neg b).

(** An infinity scaled by the sign of a finite factor. *)
Definition scale_inf (positive : bool) (x : Q) : num :=
  match (0 ?= x)%Q with
  | Eq => NaN
  | Lt => if positive then PosInf else NegInf
  | Gt => if positive then NegInf else PosInf
  end.

(** [a * b] *)
Definition mul (a b : num) : num :=
  match a, b with
  | NaN, _ | _, NaN => NaN
  | PosInf, PosInf | NegInf, NegInf => PosInf
  | PosInf, NegInf | NegInf, PosInf => NegInf
  | PosInf, Fin x | Fin x, PosInf => scale_inf true x
  | NegInf, Fin x | Fin x, NegInf => scale_inf false x
  | Fin x, Fin y => Fin (x * y)
  end.

(** [a / b]; a zero divisor is the positive zero. *)
Definition div (a b : num) : num :=
  match a, b with
  | NaN, _ | _, NaN => NaN
  | (PosInf | NegInf), (PosInf | NegInf) => NaN
  | Fin _, (PosInf | NegInf) => Fin 0
  | PosInf, Fin y => if Qltb y 0 then NegInf else PosInf
  | NegInf, Fin y => if Qltb y 0 then PosInf else NegInf
  | Fin x, Fin y =>
      if Qeq_bool y 0
      then match (0 ?= x)%Q with Eq => NaN | Lt => PosInf | Gt => NegInf end
      else Fin (x / y)
  end.

(** [Math.round(a)]: nearest integer, ties towards +Infinity. *)
Definition Math_round (a : num) : num :=
  match a with
  | Fin x => Fin (inject_Z (Qfloor (x + (1 # 2))))
  | _ => a
  end.

(** ToBoolean on a number: NaN and zero are falsy. *)
Definition truthy (a : num) : bool :=
  match a with
  | NaN => false
  | Fin x => negb (Qeq_bool x 0)
  | _ => true
  end.

(** [a || b] on numbers. *)
Definition or_ (a b : num) : num := if truthy a then a else b.

(** Strings are sequences of UTF-16 code units. *)
Definition str : Type := list N.

(** The code units of an ASCII literal (one unit per character). *)
Definition lit (s : string) : str :=
  map Ascii.N_of_ascii (String.list_ascii_of_string s).

End JS.

(** ** PortfolioGallery: the before/after comparison slider

  One [slider] record per [.image-container]; it holds what the closures of
  [initBeforeAfterSliders] read and write: the after image's clip
  percentage, the handle's left offset, the [isDragging] flag, the
  container's cursor and its attributes.  Both [.after-image] and
  [.slider-handle] are taken to exist in the container. *)
Module PortfolioGallery.
Import JS.

Record slider : Type := {
  (** [afterImage.style.clipPath], the p of
      [polygon(p% 0%, 100% 0%, 100% 100%, p% 100%)]; [None] if unset *)
  clipPath : option num;
  (** [sliderHandle.style.left], the p of [p%]; [None] if unset *)
  left : option num;
  isDragging : bool;
  cursor : string;
  (** attributes of the container element *)
  attrs : gmap string string
}.

(** The two style writes of [updateSlider].  A style property keeps the
    value it had when it is assigned text that is not valid CSS: for a
    percentage that is not a finite number the template strings read
    [polygon(NaN% 0%, 100% 0%, 100% 100%, NaN% 100%)] and [NaN%], and both
    assignments are dropped. *)
Definition set_visual (p : num) (s : slider) : slider :=
  match p with
  | Fin _ =>
      {| clipPath := Some p; left := Some p; isDragging := isDragging s;
         cursor := cursor s; attrs := attrs s |}
  | _ => s
  end.

Definition set_dragging (b : bool) (s : slider) : slider :=
  {| clipPath := clipPath s; left := left s; isDragging := b;
     cursor := cursor s; attrs := attrs s |}.

Definition set_cursor (c : string) (s : slider) : slider :=
  {| clipPath := clipPath s; left := left s; isDragging := isDragging s;
     cursor := c; attrs := attrs s |}.

Definition setAttribute (k v : string) (s : slider) : slider :=
  {| clipPath := clipPath s; left := left s; isDragging := isDragging s;
     cursor := cursor s; attrs := <[k := v]> (attrs s) |}.

(** [const updateSlider = (percentage) => { ... }] *)
Definition updateSlider (percentage : num) (s : slider) : slider :=
  let percentage := Math_max (Fin 0) (Math_min (Fin 100) percentage) in
  set_visual percentage s.

(** What [getPercentageFromEvent] reads: the pointer's (or first touch's)
    clientX and the container's bounding rectangle. *)
Record pointer : Type := {
  clientX : num;
  rect_left : num;
  rect_width : num
}.

Definition getPercentageFromEvent (e : pointer) : num :=
  mul (div (sub (clientX e) (rect_left e)) (rect_width e)) (Fin 100).

Inductive event : Type :=
| MouseDown (e : pointer)     (* on the container *)
| MouseMove (e : pointer)     (* on the document *)
| MouseUp                     (* on the document *)
| TouchStart (e : pointer)    (* on the container *)
| TouchMove (e : pointer)     (* on the document *)
| TouchEnd                    (* on the document *)
| HandleClick                 (* on the handle: stopPropagation only *)
| KeyDown (key : string).     (* on the container, when focused *)

(** [parseFloat(sliderHandle.style.left)]: the empty string of an unset
    style parses to NaN; [p%] parses back to p.  (The whole percentages
    that the keyboard steps produce are read back digit for digit; of a
    long fraction a browser may keep fewer digits.) *)
Definition parseFloat_left (s : slider) : num :=
  match left s with
  | None => NaN
  | Some p => p
  end.

Definition keydown (key : string) (s : slider) : slider :=
  if String.eqb key "ArrowLeft" then
    let currentLeft := or_ (parseFloat_left s) (Fin 50) in
    updateSlider (sub currentLeft (Fin 5)) s
  else if String.eqb key "ArrowRight" then
    let currentLeft := or_ (parseFloat_left s) (Fin 50) in
    updateSlider (add currentLeft (Fin 5)) s
  else s.

(** The listeners registered for one container. *)
Definition handle (ev : event) (s : slider) : slider :=
  match ev with
  | MouseDown e =>
      let s := set_dragging true s in
      let s := set_cursor "ew-resize" s in
      updateSlider (getPercentageFromEvent e) s
  | MouseMove e =>
      if negb (isDragging s) then s
      else updateSlider (getPercentageFromEvent e) s
  | MouseUp =>
      if isDragging s
      then set_cursor "ew-resize" (set_dragging false s)
      else s
  | TouchStart e =>
      let s := set_dragging true s in
      updateSlider (getPercentageFromEvent e) s
  | TouchMove e =>
      if negb (isDragging s) then s
      else updateSlider (getPercentageFromEvent e) s
  | TouchEnd => set_dragging false s
  | HandleClick => s
  | KeyDown key => keydown key s
  end.

(** The attribute writes that end the per-container setup. *)
Definition initContainer (s : slider) : slider :=
  let s := set_dragging false s in
  let s := setAttribute "tabindex" "0" s in
  let s := setAttribute "role" "slider" s in
  let s := setAttribute "aria-label" "Плъзнете за да видите преди и след" s in
  let s := setAttribute "aria-valuemin" "0" s in
  let s := setAttribute "aria-valuemax" "100" s in
  setAttribute "aria-valuenow" "50" s.

Definition initBeforeAfterSliders (containers : list slider) : list slider :=
  map initContainer containers.

Definition run (evs : list event) (s : slider) : slider :=
  foldl (fun s ev => handle ev s) s evs.

(** The number an attribute value denotes, when it is a decimal integer. *)
Definition attr_number (v : string) : option num :=
  (fun i => Fin (inject_Z (Z.of_int i))) <$> NilZero.int_of_string v.

Definition aria_valuenow (s : slider) : option num :=
  attrs s !! "aria-valuenow" ≫= attr_number.

(** A container as the markup leaves it: no inline styles, no attributes. *)
Definition fresh : slider :=
  {| clipPath := None; left := None; isDragging := false;
     cursor := ""; attrs := ∅ |}.

(** A slider after setup, then moved to 30. *)
Definition at_30 : slider := updateSlider (Fin 30) (initContainer fresh).

End PortfolioGallery.

(** ** Strings: whitespace, trimming and the small regular expressions

  [\s] of a regular expression and the characters [String.prototype.trim]
  strips are the same set of code units: WhiteSpace and LineTerminator. *)
Module JSString.
Import JS.
Local Open Scope N_scope.

Definition is_space (c : N) : bool :=
  (9 <=? c) && (c <=? 13)
  || (c =? 32) || (c =? 160) || (c =? 5760)
  || (8192 <=? c) && (c <=? 8202)
  || (c =? 8232) || (c =? 8233) || (c =? 8239) || (c =? 8287)
  || (c =? 12288) || (c =? 65279).

Fixpoint trimStart (s : str) : str :=
  match s with
  | c :: r => if is_space c then trimStart r else s
  | [] => []
  end.

Definition trimEnd (s : str) : str := rev (trimStart (rev s)).

(** [s.trim()] *)
Definition trim (s : str) : str := trimEnd (trimStart s).

(** Regular expressions without captures, look-around or back-references;
    on these [re.test(s)] with [^...$] is membership of the whole string. *)
Inductive regex : Type :=
| Void
| Eps
| Class (p : N -> bool)
| Cat (r1 r2 : regex)
| Alt (r1 r2 : regex)
| Star (r : regex).

Definition Plus (r : regex) : regex := Cat r (Star r).
Definition Opt (r : regex) : regex := Alt r Eps.

Fixpoint Power (r : regex) (n : nat) : regex :=
  match n with
  | O => Eps
  | S n => Cat r (Power r n)
  end.

(** [r{lo,lo+extra}] *)
Fixpoint Range (r : regex) (lo extra : nat) : regex :=
  match extra with
  | O => Power r lo
  | S k => Cat (Range r lo k) (Opt r)
  end.

Fixpoint Lit (cs : str) : regex :=
  match cs with
  | [] => Eps
  | c :: cs => Cat (Class (N.eqb c)) (Lit cs)
  end.

Fixpoint nullable (r : regex) : bool :=
  match r with
  | Void => false
  | Eps => true
  | Class _ => false
  | Cat r1 r2 => nullable r1 && nullable r2
  | Alt r1 r2 => nullable r1 || nullable r2
  | Star _ => true
  end.

Fixpoint deriv (c : N) (r : regex) : regex :=
  match r with
  | Void => Void
  | Eps => Void
  | Class p => if p c then Eps else Void
  | Cat r1 r2 =>
      if nullable r1
      then Alt (Cat (deriv c r1) r2) (deriv c r2)
      else Cat (deriv c r1) r2
  | Alt r1 r2 => Alt (deriv c r1) (deriv c r2)
  | Star r => Cat (deriv c r) (Star r)
  end.

(** [/^r$/.test(s)] *)
Fixpoint test (r : regex) (s : str) : bool :=
  match s with
  | [] => nullable r
  | c :: s => test (deriv c r) s
  end.

(** The strings a regular expression denotes. *)
Inductive matches : regex -> str -> Prop :=
| m_eps : matches Eps []
| m_class p c : p c = true -> matches (Class p) [c]
| m_cat r1 r2 s1 s2 :
    matches r1 s1 -> matches r2 s2 -> matches (Cat r1 r2) (s1 ++ s2)
| m_alt_l r1 r2 s : matches r1 s -> matches (Alt r1 r2) s
| m_alt_r r1 r2 s : matches r2 s -> matches (Alt r1 r2) s
| m_star_nil r : matches (Star r) []
| m_star_app r s1 s2 :
    matches r s1 -> matches (Star r) s2 -> matches (Star r) (s1 ++ s2).

Definition at_sign : N := 64.
Definition dot : N := 46.
Definition is_digit (c : N) : bool := (48 <=? c) && (c <=? 57).

(** [[^\s@]] *)
Definition not_space_at (c : N) : bool := negb (is_space c || (c =? at_sign)).

(** [[\s\-\(\)]] *)
Definition phone_noise (c : N) : bool :=
  is_space c || (c =? 45) || (c =? 40) || (c =? 41).

End JSString.

(** ** ContactForm: validation and the simulated submission *)
Module ContactForm.
Import JS JSString.

(** One form control, with the parts of it the handlers touch. *)
Record field : Type := {
  name : string;
  type : string;
  value : str;
  defaultValue : str;
  required : bool;              (* hasAttribute('required') *)
  class_error : bool;           (* classList contains 'error' *)
  aria_invalid : option string; (* the aria-invalid attribute *)
  can_focus : bool              (* focus() moves the focus to it: the
                                   control is rendered *)
}.

(** The element [document.getElementById(name + '-error')]. *)
Record errorElement : Type := {
  textContent : string;
  aria_live : option string
}.

Record button : Type := {
  disabled : bool;
  label : string                (* textContent *)
}.

Inductive banner : Type := SuccessMessage | ErrorMessage.

(** An element inside the form that [querySelector] can return or that
    can hold the focus: a control, by its index in [fields], or the element
    described by [other_error] below. *)
Inductive node : Type :=
| Control (i : nat)
| Other.

(** An element of the form's markup that is not a control and whose class
    list holds [error].  The script adds and removes that class on controls
    only, so such an element keeps it; the messages the script inserts
    have the classes [success-message] and [error-message], which the
    selector [.error] does not match. *)
Record marked : Type := {
  position : nat;       (* the number of controls before it in the document *)
  tabbable : bool       (* focus() moves the focus to it *)
}.

Record form : Type := {
  fields : list field;                  (* controls in document order *)
  other_error : option marked;          (* the first element of class error
                                           that is not a control, if any *)
  errors : gmap string errorElement;    (* error elements, by id *)
  submitButton : option button;         (* button[type="submit"] *)
  banners : list banner;                (* message divs, first child first *)
  timers : list (N * banner);           (* pending removals (ms, message) *)
  console : list string;
  focused : option node;                (* the element in focus; [None] when
                                           it is none of the above, as the
                                           submit button *)
  scrolledIntoView : option node        (* last scrollIntoView target *)
}.

Definition errorId (f : field) : string := name f +:+ "-error".

Definition set_mark (c : bool) (a : string) (f : field) : field :=
  {| name := name f; type := type f; value := value f;
     defaultValue := defaultValue f; required := required f;
     class_error := c; aria_invalid := Some a; can_focus := can_focus f |}.

(** [clearErrors(field)] *)
Definition clearErrors (f : field) (doc : gmap string errorElement)
  : field * gmap string errorElement :=
  let errorElement := doc !! errorId f in
  let f := set_mark false "false" f in
  match errorElement with
  | Some el =>
      (f, <[errorId f := {| textContent := ""; aria_live := aria_live el |}]> doc)
  | None => (f, doc)
  end.

(** [showError(field, message)] *)
Definition showError (f : field) (message : string)
    (doc : gmap string errorElement) : field * gmap string errorElement :=
  let errorElement := doc !! errorId f in
  let f := set_mark true "true" f in
  match errorElement with
  | Some el =>
      (f, <[errorId f := {| textContent := message; aria_live := Some "polite" |}]> doc)
  | None => (f, doc)
  end.

(** [/^[^\s@]+@[^\s@]+\.[^\s@]+$/] *)
Definition emailRegex : regex :=
  Cat (Plus (Class not_space_at))
    (Cat (Class (N.eqb at_sign))
       (Cat (Plus (Class not_space_at))
          (Cat (Class (N.eqb dot)) (Plus (Class not_space_at))))).

Definition isValidEmail (email : str) : bool := test emailRegex email.

(** [/^(\+359|359|0)?\s?[0-9]{8,9}$/] *)
Definition phoneRegex : regex :=
  Cat (Opt (Alt (Lit (lit "+359")) (Alt (Lit (lit "359")) (Lit (lit "0")))))
    (Cat (Opt (Class is_space)) (Range (Class is_digit) 8 1)).

Definition isValidPhone (phone : str) : bool :=
  let cleanPhone := filter (fun c => negb (phone_noise c)) phone in
  test phoneRegex cleanPhone.

Definition msg_required : string := "Това поле е задължително".
Definition msg_email : string := "Моля въведете валиден имейл адрес".
Definition msg_phone : string := "Моля въведете валиден телефонен номер".
Definition msg_name : string := "Името трябва да съдържа поне 2 символа".

(** A non-empty string is truthy. *)
Definition nonempty (s : str) : bool :=
  match s with [] => false | _ => true end.

(** The if/else-if chain of [validateField]: the final values of the
    locals [isValid] and [errorMessage]. *)
Definition check (f : field) : bool * string :=
  let fieldName := name f in
  let value := trim (value f) in
  if required f && negb (nonempty value) then
    (false, msg_required)
  else if String.eqb (type f) "email" && nonempty value
          && negb (isValidEmail value) then
    (false, msg_email)
  else if String.eqb (type f) "tel" && nonempty value
          && negb (isValidPhone value) then
    (false, msg_phone)
  else if String.eqb fieldName "name" && nonempty value
          && (length value <? 2)%nat then
    (false, msg_name)
  else
    (true, "").

(** [validateField(field)]: the returned [isValid] and the DOM after. *)
Definition validateField (f : field) (doc : gmap string errorElement)
  : bool * field * gmap string errorElement :=
  let '(f1, doc1) := clearErrors f doc in
  let '(isValid, errorMessage) := check f in
  if negb isValid
  then let '(f2, doc2) := showError f1 errorMessage doc1 in (isValid, f2, doc2)
  else (isValid, f1, doc1).

(** The control as [validateField] leaves it. *)
Definition validated (f : field) : field :=
  if (check f).1 then set_mark false "false" f else set_mark true "true" f.

(** A rendered control as the markup has it, unmarked. *)
Definition input (nm ty : string) (v : str) (req : bool) : field :=
  {| name := nm; type := ty; value := v; defaultValue := [];
     required := req; class_error := false; aria_invalid := None;
     can_focus := true |}.

(** The [forEach] of [validateForm] over the [[required]] controls. *)
Fixpoint validateForm_loop (fs : list field) (doc : gmap string errorElement)
    (isValid : bool) : list field * gmap string errorElement * bool :=
  match fs with
  | [] => ([], doc, isValid)
  | f :: rest =>
      if required f then
        let '(ok, f', doc') := validateField f doc in
        let isValid := if negb ok then false else isValid in
        let '(rest', doc'', isValid) := validateForm_loop rest doc' isValid in
        (f' :: rest', doc'', isValid)
      else
        let '(rest', doc', isValid) := validateForm_loop rest doc isValid in
        (f :: rest', doc', isValid)
  end.

Definition with_dom (fs : list field) (doc : gmap string errorElement)
    (st : form) : form :=
  {| fields := fs; other_error := other_error st; errors := doc;
     submitButton := submitButton st;
     banners := banners st; timers := timers st; console := console st;
     focused := focused st; scrolledIntoView := scrolledIntoView st |}.

(** [validateForm()] *)
Definition validateForm (st : form) : bool * form :=
  let '(fs, doc, isValid) := validateForm_loop (fields st) (errors st) true in
  (isValid, with_dom fs doc st).

(** The index of the first control whose class list holds [error]. *)
Fixpoint firstError (fs : list field) : option nat :=
  match fs with
  | [] => None
  | f :: rest => if class_error f then Some O else S <$> firstError rest
  end.

(** [this.form.querySelector('.error')]: the first descendant of the form,
    in document order, whose class list holds [error], a control or not.
    The other element comes before control i when at most i controls come
    before it. *)
Definition querySelector_error (st : form) : option node :=
  match other_error st, firstError (fields st) with
  | Some o, Some i =>
      if (position o <=? i)%nat then Some Other else Some (Control i)
  | Some _, None => Some Other
  | None, Some i => Some (Control i)
  | None, None => None
  end.

(** The blur listener that [init] registers on every control: it runs
    [validateField] on the control that lost the focus. *)
Definition blur (j : nat) (st : form) : form :=
  match fields st !! j with
  | Some f =>
      let '(_, f', doc) := validateField f (errors st) in
      with_dom (<[j := f']> (fields st)) doc st
  | None => st
  end.

Definition node_eqb (a b : option node) : bool :=
  match a, b with
  | Some (Control i), Some (Control j) => Nat.eqb i j
  | Some Other, Some Other => true
  | None, None => true
  | _, _ => false
  end.

Definition set_focused (t : option node) (st : form) : form :=
  {| fields := fields st; other_error := other_error st;
     errors := errors st; submitButton := submitButton st;
     banners := banners st; timers := timers st; console := console st;
     focused := t; scrolledIntoView := scrolledIntoView st |}.

(** The focus moves to [t]: nothing happens when [t] has it already;
    otherwise the element in focus gets a blur event, which runs the
    listener above when it is a control, and then [t] is in focus. *)
Definition move_focus (t : option node) (st : form) : form :=
  if node_eqb (focused st) t then st
  else
    let st := match focused st with
              | Some (Control j) => blur j st
              | _ => st
              end in
    set_focused t st.

Definition can_take_focus (e : node) (st : form) : bool :=
  match e with
  | Control i =>
      match fields st !! i with Some f => can_focus f | None => false end
  | Other =>
      match other_error st with Some o => tabbable o | None => false end
  end.

(** [e.focus()]: without effect on an element that cannot take focus. *)
Definition focus_on (e : node) (st : form) : form :=
  if can_take_focus e st then move_focus (Some e) st else st.

(** [e.scrollIntoView(...)] *)
Definition scrollIntoView (e : node) (st : form) : form :=
  {| fields := fields st; other_error := other_error st;
     errors := errors st; submitButton := submitButton st;
     banners := banners st; timers := timers st; console := console st;
     focused := focused st; scrolledIntoView := Some e |}.

(** [focusFirstError()] *)
Definition focusFirstError (st : form) : form :=
  match querySelector_error st with
  | Some firstError =>
      let st := focus_on firstError st in
      scrollIntoView firstError st
  | None => st
  end.


Definition with_button (b : button) (st : form) : form :=
  {| fields := fields st; other_error := other_error st;
     errors := errors st;
     submitButton := (fun _ => b) <$> submitButton st;
     banners := banners st; timers := timers st; console := console st;
     focused := focused st; scrolledIntoView := scrolledIntoView st |}.

Definition show (m : banner) (ms : N) (st : form) : form :=
  {| fields := fields st; other_error := other_error st;
     errors := errors st;
     submitButton := submitButton st;
     banners := m :: banners st; timers := timers st ++ [(ms, m)];
     console := console st;
     focused := focused st; scrolledIntoView := scrolledIntoView st |}.

(** [showSuccess()]: the message is removed after 5 seconds. *)
Definition showSuccess (st : form) : form := show SuccessMessage 5000%N st.

(** [showSubmissionError()]: the message is removed after 8 seconds. *)
Definition showSubmissionError (st : form) : form := show ErrorMessage 8000%N st.

Definition console_error (line : string) (st : form) : form :=
  {| fields := fields st; other_error := other_error st;
     errors := errors st;
     submitButton := submitButton st; banners := banners st;
     timers := timers st; console := console st ++ [line];
     focused := focused st; scrolledIntoView := scrolledIntoView st |}.

Definition reset_field (f : field) : field :=
  {| name := name f; type := type f; value := defaultValue f;
     defaultValue := defaultValue f; required := required f;
     class_error := class_error f; aria_invalid := aria_invalid f;
     can_focus := can_focus f |}.

(** [this.form.reset()] *)
Definition reset (st : form) : form :=
  with_dom (reset_field <$> fields st) (errors st) st.

(** [new FormData(this.form)] *)
Definition FormData (st : form) : list (string * str) :=
  (fun f => (name f, value f)) <$> fields st.

(** How the awaited submission settles. *)
Inductive outcome : Type := Resolved | Rejected.

(** The locals [submitForm] keeps across its [await]. *)
Record suspended : Type := {
  originalText : string;
  formData : list (string * str)
}.

(** [submitForm(formData)] up to the [await]: [None] when there is no
    submit button, where reading its [textContent] throws before the
    [try] is entered. *)
Definition submitForm_start (fd : list (string * str)) (st : form)
  : option (form * suspended) :=
  match submitButton st with
  | None => None
  | Some submitButton =>
      let originalText := label submitButton in
      let st := with_button {| disabled := true; label := "Изпращане..." |} st in
      Some (st, {| originalText := originalText; formData := fd |})
  end.

(** [submitForm] from the [await] on: the rest of the [try] or the
    [catch], then the [finally]. *)
Definition submitForm_resume (o : outcome) (k : suspended) (st : form) : form :=
  let st :=
    match o with
    | Resolved => reset (showSuccess st)
    | Rejected => showSubmissionError (console_error "Form submission error:" st)
    end in
  with_button {| disabled := false; label := originalText k |} st.

(** What a submit event leads to. *)
Inductive submitted : Type :=
| Aborted (st : form)                         (* submitForm not called *)
| Threw (st : form)                           (* submitForm called, no button *)
| Awaiting (st : form) (k : suspended).       (* submitForm called, pending *)

(** [handleSubmit(e)] *)
Definition handleSubmit (st : form) : submitted :=
  let formData := FormData st in
  let '(isValid, st) := validateForm st in
  if negb isValid then Aborted (focusFirstError st)
  else match submitForm_start formData st with
       | None => Threw st
       | Some (st', k) => Awaiting st' k
       end.

Definition submitForm_invoked (r : submitted) : bool :=
  match r with
  | Aborted _ => false
  | _ => true
  end.

Definition form_of (r : submitted) : form :=
  match r with
  | Aborted st | Threw st | Awaiting st _ => st
  end.

(** What the loop of [validateForm] does to one control. *)
Definition revalidated (f : field) : field :=
  if required f then validated f else f.

(** The control does not make [validateForm] fail. *)
Definition required_ok (f : field) : bool :=
  negb (required f) || (check f).1.


(** A valid required name next to an optional email and an optional phone
    that [validateField] both rejects. *)
Definition form_bad_optional : form :=
  {| fields := [input "name" "text" (lit "Al") true;
                input "email" "email" (lit "not-an-email") false;
                input "phone" "tel" (lit "123") false];
     other_error := None; errors := ∅;
     submitButton := Some {| disabled := false; label := "Send" |};
     banners := []; timers := []; console := [];
     focused := None; scrolledIntoView := None |}.



End ContactForm.

(** ** The validator as the specification words it: an ordered list of
  rules, the first whose guard holds decides. *)
Module FieldValidatorSpec.
Import JS JSString ContactForm.

Inductive rule : Type := RequiredEmpty | EmailPattern | PhonePattern | NameLength.

Definition guard (r : rule) (f : field) : bool :=
  let v := trim (value f) in
  match r with
  | RequiredEmpty => required f && negb (nonempty v)
  | EmailPattern => String.eqb (type f) "email" && nonempty v && negb (isValidEmail v)
  | PhonePattern => String.eqb (type f) "tel" && nonempty v && negb (isValidPhone v)
  | NameLength => String.eqb (name f) "name" && nonempty v && (length v <? 2)%nat
  end.

Definition rules : list rule :=
  [RequiredEmpty; EmailPattern; PhonePattern; NameLength].

Definition message (r : rule) : string :=
  match r with
  | RequiredEmpty => msg_required
  | EmailPattern => msg_email
  | PhonePattern => msg_phone
  | NameLength => msg_name
  end.

(** [None]: valid.  [Some r]: invalid by rule [r]. *)
Definition validate (f : field) : option rule :=
  List.find (fun r => guard r f) rules.

End FieldValidatorSpec.

(** ** ScrollAnimations: the one-shot reveal observer

  Targets are numbered.  The state is the observer's set of observed
  targets, the set of elements that carry [animate-fade-in-up], and a
  record of every run of the callback's reveal branch. *)
Module ScrollAnimations.

Record entry : Type := {
  target : nat;
  isIntersecting : bool
}.

Record state : Type := {
  observed : gset nat;
  animated : gset nat;     (* classList contains 'animate-fade-in-up' *)
  fired : list nat         (* targets of the reveal branch, oldest first *)
}.

(** The body of the [entries.forEach] in the observer callback. *)
Definition on_entry (s : state) (e : entry) : state :=
  if isIntersecting e then
    {| observed := observed s ∖ {[target e]};
       animated := {[target e]} ∪ animated s;
       fired := fired s ++ [target e] |}
  else s.

(** The observer callback on one batch of entries. *)
Definition callback (entries : list entry) (s : state) : state :=
  foldl on_entry s entries.

(** The observer reports intersection changes of observed targets only. *)
Definition deliver (s : state) (changes : list entry) : list entry :=
  filter (fun e => target e ∈ observed s) changes.

Definition notify (s : state) (changes : list entry) : state :=
  callback (deliver s changes) s.

(** [fallbackAnimations()] *)
Definition fallbackAnimations (animatedElements : list nat) : state :=
  {| observed := ∅; animated := list_to_set animatedElements; fired := [] |}.

(** [init()], on a page where no target carries the class yet. *)
Definition init (has_IntersectionObserver : bool)
    (animatedElements : list nat) : state :=
  if negb has_IntersectionObserver then fallbackAnimations animatedElements
  else {| observed := list_to_set animatedElements; animated := ∅; fired := [] |}.

(** The states passed through while the page reports [batches]. *)
Fixpoint trace (s : state) (batches : list (list entry)) : list state :=
  match batches with
  | [] => [s]
  | b :: rest => s :: trace (notify s b) rest
  end.

Definition run (s : state) (batches : list (list entry)) : state :=
  foldl notify s batches.

(** How often [t] goes from not revealed to revealed along a trace. *)
Fixpoint transitions (t : nat) (tr : list state) : nat :=
  match tr with
  | [] => 0%nat
  | s :: rest =>
      match rest with
      | [] => 0%nat
      | s' :: _ =>
          ((if bool_decide ((t ∉ animated s) ∧ (t ∈ animated s')) then 1 else 0)
           + transitions t rest)%nat
      end
  end.

(** Three targets; the second enters the viewport, leaves it and enters
    it again. *)
Definition three_targets : state := init true [1; 2; 3]%nat.
Definition enters : list entry := [{| target := 2%nat; isIntersecting := true |}].
Definition leaves_and_returns : list (list entry) :=
  [[{| target := 2%nat; isIntersecting := false |}];
   [{| target := 2%nat; isIntersecting := true |}]].

End ScrollAnimations.

(** ** Analytics: scroll-depth milestones behind a throttle *)
Module Analytics.
Import JS.

Record state : Type := {
  maxScroll : num;
  inThrottle : bool;                       (* of throttle(..., 250) *)
  tracked : gset Z;                        (* the tracked_<milestone> flags *)
  log : list (string * string * string)    (* trackEvent calls *)
}.

Record metrics : Type := {
  scrollY : num;
  scrollHeight : num;
  innerHeight : num
}.

Inductive event : Type :=
| Scroll (m : metrics)
| ThrottleTimeout                  (* the throttle's setTimeout fires *)
| Submit (contact_form : bool)     (* e.target.matches('.contact-form') *)
| PhoneClick (href : string).

Definition milestones : list Z := [25; 50; 75; 90]%Z.

(** [trackEvent(action, category, label)] *)
Definition trackEvent (action category label : string) (s : state) : state :=
  {| maxScroll := maxScroll s; inThrottle := inThrottle s;
     tracked := tracked s; log := log s ++ [(action, category, label)] |}.

Definition mark (milestone : Z) (s : state) : state :=
  {| maxScroll := maxScroll s; inThrottle := inThrottle s;
     tracked := {[milestone]} ∪ tracked s; log := log s |}.

Definition on_milestone (scrollPercent : num) (s : state) (milestone : Z) : state :=
  if ge scrollPercent (Fin (inject_Z milestone))
     && negb (bool_decide (milestone ∈ tracked s))
  then mark milestone (trackEvent "scroll" "depth" (pretty milestone +:+ "%") s)
  else s.

(** The function handed to [throttle] in [trackScrollDepth]. *)
Definition trackScroll_body (m : metrics) (s : state) : state :=
  let scrollPercent :=
    Math_round (mul (div (scrollY m) (sub (scrollHeight m) (innerHeight m)))
                    (Fin 100)) in
  if gt scrollPercent (maxScroll s) then
    let s := {| maxScroll := scrollPercent; inThrottle := inThrottle s;
                tracked := tracked s; log := log s |} in
    foldl (on_milestone scrollPercent) s milestones
  else s.

Definition set_throttle (b : bool) (s : state) : state :=
  {| maxScroll := maxScroll s; inThrottle := b;
     tracked := tracked s; log := log s |}.

(** [throttle(func, limit)]: run, then refuse until the timer fires. *)
Definition trackScroll (m : metrics) (s : state) : state :=
  if negb (inThrottle s) then set_throttle true (trackScroll_body m s)
  else s.

Definition handle (ev : event) (s : state) : state :=
  match ev with
  | Scroll m => trackScroll m s
  | ThrottleTimeout => set_throttle false s
  | Submit contact_form =>
      if contact_form then trackEvent "form" "submit" "contact_form" s else s
  | PhoneClick href => trackEvent "contact" "phone_click" href s
  end.

(** [let maxScroll = 0] and nothing tracked. *)
Definition init : state :=
  {| maxScroll := Fin 0; inThrottle := false; tracked := ∅; log := [] |}.

Definition run (evs : list event) (s : state) : state :=
  foldl (fun s ev => handle ev s) s evs.

(** [a] is at most [b]. *)
Definition le (a b : num) : Prop := a = b \/ lt a b = true.

End Analytics.

(** ** initializeApp: nine constructors inside one try block *)
Module App.

Inductive component : Type :=
| MobileMenu
| HeaderScrollEffect
| SmoothScroll
| ContactForm
| ScrollAnimations
| PortfolioGallery
| PerformanceOptimizer
| AccessibilityEnhancements
| Analytics.

#[export] Instance component_eq_dec : EqDecision component.
Proof. solve_decision. Defined.

(** The order of the [new] expressions in [initializeApp]. *)
Definition components : list component :=
  [MobileMenu; HeaderScrollEffect; SmoothScroll; ContactForm;
   ScrollAnimations; PortfolioGallery; PerformanceOptimizer;
   AccessibilityEnhancements; Analytics].

Inductive line : Type :=
| LogInitialized                       (* console.log('... initialized successfully') *)
| ErrorInitializing (c : component).   (* console.error('Error initializing website:', error) *)

Record result : Type := {
  initialized : list component;        (* constructors that completed *)
  console : list line
}.

(** The statements of the try block, up to the first that throws. *)
Fixpoint try_block (throws : component -> bool) (cs : list component)
  : list component * option component :=
  match cs with
  | [] => ([], None)
  | c :: rest =>
      if throws c then ([], Some c)
      else let '(done, thrown) := try_block throws rest in (c :: done, thrown)
  end.

(** [initializeApp()], given which constructors throw on this page. *)
Definition initializeApp (throws : component -> bool) : result :=
  match try_block throws components with
  | (done, None) => {| initialized := done; console := [LogInitialized] |}
  | (done, Some c) => {| initialized := done; console := [ErrorInitializing c] |}
  end.

(** The facts about a page that decide whether a constructor throws. *)
Record page : Type := {
  (** ['IntersectionObserver' in window] *)
  has_IntersectionObserver : bool;
  (** some [.image-container] has no [.slider-handle] inside *)
  container_without_handle : bool
}.

(** [PortfolioGallery] calls [sliderHandle.addEventListener] on the result
    of [querySelector]; [AccessibilityEnhancements.announcePageChanges]
    calls [new IntersectionObserver] without testing for it. *)
Definition throws_on (p : page) (c : component) : bool :=
  match c with
  | PortfolioGallery => container_without_handle p
  | AccessibilityEnhancements => negb (has_IntersectionObserver p)
  | _ => false
  end.

(** A browser without IntersectionObserver, on complete markup. *)
Definition old_browser : page :=
  {| has_IntersectionObserver := false; container_without_handle := false |}.

End App.

(** ** debounce and throttle

  Timers are events: a timer that is live may run at any later point.  The
  order of calls and timer runs is what the two helpers depend on. *)
Module Timing.

(** The closure of [debounce(func, wait)]: the arguments held by the live
    timer, if one is live, and the calls of [func] made so far. *)
Record debounced (A : Type) : Type := {
  timeout : option A;
  passed : list A
}.
Arguments timeout {A} _.
Arguments passed {A} _.

Inductive debounce_event (A : Type) : Type :=
| Call (args : A)      (* executedFunction(...args) *)
| Later.               (* the live timer runs [later] *)
Arguments Call {A} _.
Arguments Later {A}.

(** [Call]: [clearTimeout(timeout); timeout = setTimeout(later, wait)].
    [Later]: [clearTimeout(timeout); func(...args)]. *)
Definition debounce_step {A : Type} (d : debounced A)
    (ev : debounce_event A) : debounced A :=
  match ev with
  | Call args => {| timeout := Some args; passed := passed d |}
  | Later =>
      match timeout d with
      | Some args => {| timeout := None; passed := passed d ++ [args] |}
      | None => d
      end
  end.

Definition debounce_run {A : Type} (d : debounced A)
    (evs : list (debounce_event A)) : debounced A :=
  foldl debounce_step d evs.

(** The closure of [throttle(func, limit)] around the state [func] acts on. *)
Record throttled (S : Type) : Type := {
  inThrottle : bool;
  inner : S
}.
Arguments inThrottle {S} _.
Arguments inner {S} _.

Inductive throttle_event (A : Type) : Type :=
| Invoke (args : A)    (* the returned function is called *)
| Cooled.              (* the timer sets inThrottle = false *)
Arguments Invoke {A} _.
Arguments Cooled {A}.

Definition throttle_step {A S : Type} (func : A -> S -> S)
    (t : throttled S) (ev : throttle_event A) : throttled S :=
  match ev with
  | Invoke args =>
      if negb (inThrottle t)
      then {| inThrottle := true; inner := func args (inner t) |}
      else t
  | Cooled => {| inThrottle := false; inner := inner t |}
  end.

Definition throttle_run {A S : Type} (func : A -> S -> S)
    (t : throttled S) (evs : list (throttle_event A)) : throttled S :=
  foldl (throttle_step func) t evs.

(** A function that records the arguments it is called with. *)
Definition record_call {A : Type} (args : A) (calls : list A) : list A :=
  calls ++ [args].

Definition is_cooled {A : Type} (ev : throttle_event A) : bool :=
  match ev with Cooled => true | Invoke _ => false end.

Definition is_later {A : Type} (ev : debounce_event A) : bool :=
  match ev with Later => true | Call _ => false end.

Definition is_call {A : Type} (ev : debounce_event A) : bool :=
  match ev with Call _ => true | Later => false end.

(** 1 while a timer is live. *)
Definition live {A : Type} (d : debounced A) : nat :=
  match timeout d with Some _ => 1 | None => 0 end.

End Timing.

(** ** MobileMenu

  The menu button and the menu are taken to exist (without either, [init]
  registers nothing). *)
Module MobileMenu.
Import JS.

Inductive focus_target : Type := OnButton | OnFirstLink | Elsewhere.

Record menu : Type := {
  active : bool;                   (* menu.classList contains 'active' *)
  aria_hidden : option string;     (* of the menu *)
  aria_expanded : option string;   (* of the menu button *)
  overflow : string;               (* body.style.overflow *)
  focus : focus_target;            (* the last element the script focused *)
  focus_timers : nat               (* pending firstLink.focus() timers *)
}.

(** [openMenu()]; [has_link]: the menu holds a [.mobile-nav-link]. *)
Definition openMenu (has_link : bool) (m : menu) : menu :=
  {| active := true; aria_hidden := Some "false";
     aria_expanded := Some "true"; overflow := "hidden";
     focus := focus m;
     focus_timers := if has_link then S (focus_timers m) else focus_timers m |}.

(** [closeMenu()] *)
Definition closeMenu (m : menu) : menu :=
  {| active := false; aria_hidden := Some "true";
     aria_expanded := Some "false"; overflow := "";
     focus := OnButton; focus_timers := focus_timers m |}.

(** [toggleMenu()] *)
Definition toggleMenu (has_link : bool) (m : menu) : menu :=
  if active m then closeMenu m else openMenu has_link m.

Inductive event : Type :=
| ButtonClick                        (* on the menu button *)
| CloseClick                         (* on the close button *)
| LinkClick                          (* on a .mobile-nav-link *)
| MenuClick (on_menu_itself : bool)  (* e.target === this.menu *)
| KeyDown (key : string)             (* on the document *)
| ResizeSettled (innerWidth : num)   (* the debounced resize callback *)
| FocusTimer.                        (* a pending focus timer runs *)

Definition handle (has_link : bool) (m : menu) (ev : event) : menu :=
  match ev with
  | ButtonClick => toggleMenu has_link m
  | CloseClick => closeMenu m
  | LinkClick => closeMenu m
  | MenuClick on_menu_itself => if on_menu_itself then closeMenu m else m
  | KeyDown key =>
      if String.eqb key "Escape" && active m then closeMenu m else m
  | ResizeSettled innerWidth =>
      if gt innerWidth (Fin 768) && active m then closeMenu m else m
  | FocusTimer =>
      match focus_timers m with
      | O => m
      | S n =>
          {| active := active m; aria_hidden := aria_hidden m;
             aria_expanded := aria_expanded m; overflow := overflow m;
             focus := OnFirstLink; focus_timers := n |}
      end
  end.

Definition run (has_link : bool) (m : menu) (evs : list event) : menu :=
  foldl (handle has_link) m evs.

(** The class, the two ARIA attributes and the scroll lock agree. *)
Definition coherent (m : menu) : Prop :=
  if active m
  then aria_hidden m = Some "false" /\ aria_expanded m = Some "true"
       /\ overflow m = "hidden"
  else aria_hidden m = Some "true" /\ aria_expanded m = Some "false"
       /\ overflow m = "".

Definition is_button_click (ev : event) : bool :=
  match ev with ButtonClick => true | _ => false end.

(** A closed menu as [closeMenu] leaves it. *)
Definition closed : menu := 
  {| active := false; aria_hidden := Some "true";
     aria_expanded := Some "false"; overflow := "";
     focus := OnButton; focus_timers := 0 |}.

(** Open, Escape, open again, a link, a resize to desktop width. *)
Definition session : list event :=
  [ButtonClick; KeyDown "Escape"; ButtonClick; LinkClick;
   ResizeSettled (Fin 1024)].

(** Everything but the menu button. *)
Definition no_button : list event :=
  [KeyDown "Escape"; MenuClick true; LinkClick; ResizeSettled (Fin 1024);
   CloseClick; FocusTimer; KeyDown "Tab"].

End MobileMenu.

(** ** PortfolioGallery: the category filter, and several containers on
    one page *)
Module Gallery.
Import JS PortfolioGallery.

Record item : Type := {
  category : option string;    (* dataset.category *)
  hidden : bool;               (* classList contains 'hidden' *)
  fade_in : bool               (* classList contains 'fade-in' *)
}.

(** [filter === 'all' || category === filter] *)
Definition matches_filter (filter : option string) (it : item) : bool :=
  bool_decide (filter = Some "all") || bool_decide (category it = filter).

(** The body of the [forEach] in [filterPortfolio]. *)
Definition filter_item (filter : option string) (it : item) : item :=
  if matches_filter filter it
  then {| category := category it; hidden := false; fade_in := true |}
  else {| category := category it; hidden := true; fade_in := fade_in it |}.

(** [filterPortfolio(filter)]; every item shown also gets a timer that
    removes [fade-in] after 500 ms. *)
Definition filterPortfolio (filter : option string) (items : list item)
  : list item :=
  filter_item filter <$> items.

(** Such a timer runs for item [i]. *)
Definition fade_in_ends (i : nat) (items : list item) : list item :=
  alter (fun it => {| category := category it; hidden := hidden it;
                      fade_in := false |}) i items.

Record filter_button : Type := {
  data_filter : option string;   (* dataset.filter *)
  active : bool                  (* classList contains 'active' *)
}.

Definition set_active (b : bool) (fb : filter_button) : filter_button :=
  {| data_filter := data_filter fb; active := b |}.

(** [updateActiveFilter(activeButton)], the button being the [k]-th. *)
Definition updateActiveFilter (k : nat) (buttons : list filter_button)
  : list filter_button :=
  alter (set_active true) k (set_active false <$> buttons).

(** A click on the [k]-th filter button itself. *)
Definition filter_click (k : nat)
    (page : list filter_button * list item)
  : list filter_button * list item :=
  match page.1 !! k with
  | Some fb => (updateActiveFilter k page.1, filterPortfolio (data_filter fb) page.2)
  | None => page
  end.

(** Several containers: each has its own closure state and its own
    bounding rectangle; the move and release listeners of every container
    sit on the document and so all of them run on each such event. *)
Record rect : Type := {
  bounds_left : num;
  bounds_width : num
}.

Inductive page_event : Type :=
| ContainerMouseDown (i : nat) (x : num)
| ContainerTouchStart (i : nat) (x : num)
| ContainerKeyDown (i : nat) (key : string)
| ContainerHandleClick (i : nat)
| DocumentMouseMove (x : num)
| DocumentMouseUp
| DocumentTouchMove (x : num)
| DocumentTouchEnd.

Definition at_container (x : num) (r : rect) : pointer :=
  {| clientX := x; rect_left := bounds_left r; rect_width := bounds_width r |}.

Definition on_container (f : rect -> event) (c : rect * slider) : rect * slider :=
  (c.1, handle (f c.1) c.2).

Definition dispatch (ev : page_event) (cs : list (rect * slider))
  : list (rect * slider) :=
  match ev with
  | ContainerMouseDown i x =>
      alter (on_container (fun r => MouseDown (at_container x r))) i cs
  | ContainerTouchStart i x =>
      alter (on_container (fun r => TouchStart (at_container x r))) i cs
  | ContainerKeyDown i key =>
      alter (on_container (fun _ => KeyDown key)) i cs
  | ContainerHandleClick i =>
      alter (on_container (fun _ => HandleClick)) i cs
  | DocumentMouseMove x =>
      on_container (fun r => MouseMove (at_container x r)) <$> cs
  | DocumentMouseUp => on_container (fun _ => MouseUp) <$> cs
  | DocumentTouchMove x =>
      on_container (fun r => TouchMove (at_container x r)) <$> cs
  | DocumentTouchEnd => on_container (fun _ => TouchEnd) <$> cs
  end.

(** The container an event is aimed at, if it is aimed at one. *)
Definition aimed_at (ev : page_event) : option nat :=
  match ev with
  | ContainerMouseDown i _ | ContainerTouchStart i _
  | ContainerKeyDown i _ | ContainerHandleClick i => Some i
  | _ => None
  end.

Definition page_run (evs : list page_event) (cs : list (rect * slider))
  : list (rect * slider) :=
  foldl (fun cs ev => dispatch ev cs) cs evs.

(** Two containers side by side, 200 wide each, as the setup leaves them. *)
Definition two_containers : list (rect * slider) :=
  [({| bounds_left := Fin 0; bounds_width := Fin 200 |}, initContainer fresh);
   ({| bounds_left := Fin 300; bounds_width := Fin 200 |}, initContainer fresh)].

End Gallery.

(** ** PerformanceOptimizer: lazy images *)
Module LazyImages.

Record image : Type := {
  src : option string;
  data_src : option string       (* dataset.src *)
}.

Record entry : Type := {
  target : nat;
  isIntersecting : bool
}.

Record state : Type := {
  images : gmap nat image;
  observed : gset nat
}.

(** The body of the [entries.forEach] in the image observer's callback. *)
Definition on_entry (s : state) (e : entry) : state :=
  if isIntersecting e then
    let images :=
      match images s !! target e with
      | Some img =>
          match data_src img with
          | Some url =>
              (* an empty data-src is falsy *)
              if String.eqb url "" then images s
              else <[target e := {| src := Some url; data_src := None |}]>
                     (images s)
          | None => images s
          end
      | None => images s
      end in
    {| images := images; observed := observed s ∖ {[target e]} |}
  else s.

Definition callback (entries : list entry) (s : state) : state :=
  foldl on_entry s entries.

(** The observer reports observed targets only. *)
Definition notify (s : state) (changes : list entry) : state :=
  callback (filter (fun e => target e ∈ observed s) changes) s.

Definition run (s : state) (batches : list (list entry)) : state :=
  foldl notify s batches.

(** [lazyLoadImages()]: without IntersectionObserver nothing is observed;
    otherwise every [img[data-src]] is. *)
Definition lazyLoadImages (has_IntersectionObserver : bool)
    (imgs : gmap nat image) : state :=
  if negb has_IntersectionObserver then {| images := imgs; observed := ∅ |}
  else {| images := imgs;
          observed := dom (filter (fun kv => is_Some (data_src kv.2)) imgs) |}.

(** Two lazy images and one that was never lazy. *)
Definition gallery_images : gmap nat image :=
  <[0%nat := {| src := None; data_src := Some "before.jpg" |}]>
    (<[1%nat := {| src := None; data_src := Some "after.jpg" |}]>
       (<[2%nat := {| src := Some "logo.png"; data_src := None |}]> ∅)).

End LazyImages.

(** ** Analytics: what the log says about a milestone *)
Module Milestones.
Import JS Analytics.

(** The [trackEvent] arguments of milestone [m]. *)
Definition milestone_event (m : Z) : string * string * string :=
  ("scroll", "depth", pretty m +:+ "%").

(** How often milestone [m] has been reported. *)
Definition reported (m : Z) (s : state) : nat :=
  length (filter (fun e => e = milestone_event m) (log s)).

(** Each milestone is flagged and reported once exactly when the greatest
    depth has reached it. *)
Definition settled (s : state) : Prop :=
  forall m, m ∈ milestones ->
    (m ∈ tracked s <-> ge (maxScroll s) (Fin (inject_Z m)) = true)
    /\ reported m s = if bool_decide (m ∈ tracked s) then 1%nat else 0%nat.

End Milestones.

(** ** The slider's inputs and its visible range *)
Module Layout.
Import JS PortfolioGallery.

Definition finite (n : num) : bool :=
  match n with Fin _ => true | _ => false end.

(** A pointer at a finite position over a container of positive width. *)
Definition laid_out (e : pointer) : bool :=
  finite (clientX e) && finite (rect_left e)
  && match rect_width e with Fin w => Qltb 0 w | _ => false end.

Definition laid_out_event (ev : event) : bool :=
  match ev with
  | MouseDown e | MouseMove e | TouchStart e | TouchMove e => laid_out e
  | _ => true
  end.

(** The clip boundary and the handle agree, on a percentage from 0 to 100
    or on nothing written yet. *)
Definition in_range (s : slider) : Prop :=
  clipPath s = left s
  /\ match left s with
     | None => True
     | Some (Fin r) => 0 <= r /\ r <= 100
     | Some _ => False
     end.

(** A press, a drag across and past the right edge, a release, some keys. *)
Definition drag_and_keys : list event :=
  [MouseDown {| clientX := Fin 40; rect_left := Fin 0; rect_width := Fin 200 |};
   MouseMove {| clientX := Fin 150; rect_left := Fin 0; rect_width := Fin 200 |};
   MouseMove {| clientX := Fin 900; rect_left := Fin 0; rect_width := Fin 200 |};
   MouseUp; KeyDown "ArrowLeft"; KeyDown "ArrowRight"; KeyDown "Home";
   TouchStart {| clientX := Fin (-5); rect_left := Fin 0; rect_width := Fin 200 |};
   TouchEnd; HandleClick].

End Layout.

(* ===================================================================== *)
(** * Part II.  Properties                                                *)
(* ===================================================================== *)

(** ** Numbers *)
Section Numbers.
Import JS.

Lemma Qltb_lt (x y : Q) : Qltb x y = true <-> x < y.
Proof.
  unfold Qltb. rewrite negb_true_iff, <- not_true_iff_false, Qle_bool_iff.
  split; [apply Qnot_le_lt | apply Qlt_not_le].
Qed.

Lemma Qltb_ge (x y : Q) : Qltb x y = false <-> y <= x.
Proof.
  unfold Qltb. rewrite negb_false_iff. apply Qle_bool_iff.
Qed.

Lemma lt_irrefl (a : num) : lt a a = false.
Proof.
  destruct a; simpl; try reflexivity.
  apply Qltb_ge, Qle_refl.
Qed.

Lemma lt_trans (a b c : num) : lt a b = true -> lt b c = true -> lt a c = true.
Proof.
  destruct a, b, c; simpl; try congruence.
  rewrite !Qltb_lt. apply Qlt_trans.
Qed.

(** [Math.max(0, Math.min(100, p))] on a finite [p]. *)
Lemma clamp_finite (q : Q) :
  Math_max (Fin 0) (Math_min (Fin 100) (Fin q))
  = Fin (if Qle_bool q 0 then 0 else if Qle_bool 100 q then 100 else q).
Proof.
  unfold Math_min, Math_max, lt, Qltb.
  repeat match goal with
  | |- context [Qle_bool ?a ?b] => destruct (Qle_bool a b) eqn:?; cbn [negb]
  end;
  try reflexivity; exfalso;
  repeat match goal with
  | H : Qle_bool _ _ = true |- _ => apply Qle_bool_iff in H
  | H : Qle_bool _ _ = false |- _ =>
      apply not_true_iff_false in H; rewrite Qle_bool_iff in H
  end; lra.
Qed.

End Numbers.

(** ** The comparison slider *)
Section Slider.
Import JS PortfolioGallery.

Lemma clamp_range (q : Q) :
  let r := if Qle_bool q 0 then 0 else if Qle_bool 100 q then 100 else q in
  0 <= r /\ r <= 100.
Proof.
  simpl. destruct (Qle_bool q 0) eqn:H0; [lra |].
  destruct (Qle_bool 100 q) eqn:H1; [lra |].
  apply not_true_iff_false in H0, H1. rewrite Qle_bool_iff in H0, H1. lra.
Qed.

Lemma clamp_cases (p : num) :
  Math_max (Fin 0) (Math_min (Fin 100) p)
  = match p with
    | NaN => NaN
    | NegInf => Fin 0
    | PosInf => Fin 100
    | Fin q =>
        Fin (if Qle_bool q 0 then 0 else if Qle_bool 100 q then 100 else q)
    end.
Proof. destruct p; try reflexivity. apply clamp_finite. Qed.

Lemma clamp_number (p : num) :
  p <> NaN ->
  exists r, Math_max (Fin 0) (Math_min (Fin 100) p) = Fin r
            /\ 0 <= r /\ r <= 100.
Proof.
  intros Hp. rewrite clamp_cases. destruct p as [| |q|]; [congruence | | |].
  - exists 0. split; [reflexivity | lra].
  - eexists. split; [reflexivity | apply clamp_range].
  - exists 100. split; [reflexivity | lra].
Qed.

Lemma updateSlider_attrs (p : num) (s : slider) :
  attrs (updateSlider p s) = attrs s.
Proof.
  unfold updateSlider, set_visual. destruct (Math_max _ _); reflexivity.
Qed.

Lemma updateSlider_isDragging (p : num) (s : slider) :
  isDragging (updateSlider p s) = isDragging s.
Proof.
  unfold updateSlider, set_visual. destruct (Math_max _ _); reflexivity.
Qed.

(** C1, at an input.  The percentage of a press on the left edge of a
    container of width zero is 0/0, which is NaN.  The min/max pair of
    [updateSlider] passes NaN on as NaN, which is not in the range 0..100
    (it is neither at least 0 nor at most 100), and the two style writes
    made with it are dropped: a slider at 30 stays at 30 and a slider
    with nothing written stays so, and no value from the range is
    applied. *)
Lemma updateSlider_NaN_not_clamped :
  getPercentageFromEvent
    {| clientX := Fin 0; rect_left := Fin 0; rect_width := Fin 0 |} = NaN
  /\ Math_max (Fin 0) (Math_min (Fin 100) NaN) = NaN
  /\ ge NaN (Fin 0) = false
  /\ ge (Fin 100) NaN = false
  /\ left (updateSlider NaN at_30) = Some (Fin 30)
  /\ clipPath (updateSlider NaN at_30) = Some (Fin 30)
  /\ left (updateSlider NaN fresh) = None
  /\ clipPath (updateSlider NaN fresh) = None.
Proof. vm_compute. repeat split; reflexivity. Qed.

(** C1, amended.  For every percentage other than NaN, [updateSlider]
    writes one value to the clip boundary of the after image and to the
    left offset of the handle, and that value is the percentage clamped to
    the range 0..100: 0 below the range (also for -Infinity), 100 above it
    (also for +Infinity), the percentage itself inside it; it is never
    below 0 and never above 100.  In particular -10 gives 0, 150 gives 100
    and 42 gives 42.  For NaN the min/max pair yields NaN, the two writes
    are dropped, and the clip boundary and the handle keep the values
    they had. *)
Theorem updateSlider_clamps (p : num) (s : slider) :
  match p with
  | NaN =>
      Math_max (Fin 0) (Math_min (Fin 100) p) = NaN
      /\ clipPath (updateSlider p s) = clipPath s
      /\ left (updateSlider p s) = left s
  | NegInf =>
      clipPath (updateSlider p s) = Some (Fin 0)
      /\ left (updateSlider p s) = Some (Fin 0)
  | PosInf =>
      clipPath (updateSlider p s) = Some (Fin 100)
      /\ left (updateSlider p s) = Some (Fin 100)
  | Fin q =>
      exists r : Q,
        clipPath (updateSlider p s) = Some (Fin r)
        /\ left (updateSlider p s) = Some (Fin r)
        /\ r = (if Qle_bool q 0 then 0 else if Qle_bool 100 q then 100 else q)
        /\ 0 <= r /\ r <= 100
  end
  /\ left (updateSlider (Fin (-10)) s) = Some (Fin 0)
  /\ left (updateSlider (Fin 150) s) = Some (Fin 100)
  /\ left (updateSlider (Fin 42) s) = Some (Fin 42).
Proof.
  split; [| repeat split; reflexivity].
  unfold updateSlider. rewrite clamp_cases.
  destruct p as [| |q|]; cbn [set_visual clipPath left].
  - repeat split; reflexivity.
  - split; reflexivity.
  - eexists. split; [reflexivity |]. split; [reflexivity |].
    split; [reflexivity |]. apply clamp_range.
  - split; reflexivity.
Qed.

(** A move with no drag in progress is ignored. *)
Lemma move_without_drag (e : pointer) (s : slider) :
  isDragging s = false ->
  handle (MouseMove e) s = s /\ handle (TouchMove e) s = s.
Proof.
  intros H. simpl. rewrite H. split; reflexivity.
Qed.

(** A press at the left edge of a container of positive width puts the
    slider at 0, a press at the right edge at 100. *)
Lemma mousedown_at_edges (l w : Q) (s : slider) :
  0 < w ->
  left (handle (MouseDown {| clientX := Fin l; rect_left := Fin l;
                             rect_width := Fin w |}) s) = Some (Fin 0)
  /\ left (handle (MouseDown {| clientX := Fin (l + w); rect_left := Fin l;
                                rect_width := Fin w |}) s) = Some (Fin 100).
Proof.
  intros Hw.
  assert (Hz : Qeq_bool w 0 = false).
  { apply not_true_iff_false. rewrite Qeq_bool_iff. lra. }
  assert (Hp : forall x : Q,
             getPercentageFromEvent
               {| clientX := Fin x; rect_left := Fin l; rect_width := Fin w |}
             = Fin ((x + - l) / w * 100)).
  { intros x. unfold getPercentageFromEvent, mul, div, sub, add, neg.
    cbn [clientX rect_left rect_width]. rewrite Hz. reflexivity. }
  cbn [handle]. unfold updateSlider.
  rewrite !Hp, !clamp_finite. cbn [left set_visual].
  assert (E0 : (l + - l) / w * 100 == 0) by (field; lra).
  assert (E1 : (l + w + - l) / w * 100 == 100) by (field; lra).
  split.
  - assert (H : Qle_bool ((l + - l) / w * 100) 0 = true).
    { apply Qle_bool_iff. rewrite E0. lra. }
    rewrite H. reflexivity.
  - assert (H0 : Qle_bool ((l + w + - l) / w * 100) 0 = false).
    { apply not_true_iff_false. rewrite Qle_bool_iff, E1. lra. }
    assert (H1 : Qle_bool 100 ((l + w + - l) / w * 100) = true).
    { apply Qle_bool_iff. rewrite E1. lra. }
    rewrite H0, H1. reflexivity.
Qed.

(** A key press looks at the handle and the key only. *)
Lemma keydown_ignores_drag (key : string) (s : slider) (b : bool) :
  left (handle (KeyDown key) (set_dragging b s)) = left (handle (KeyDown key) s).
Proof.
  assert (H : forall p, left (updateSlider p (set_dragging b s))
                        = left (updateSlider p s)).
  { intros p. unfold updateSlider, set_visual.
    destruct (Math_max _ _); reflexivity. }
  cbn [handle]. unfold keydown, parseFloat_left. cbn [left set_dragging].
  destruct (String.eqb key "ArrowLeft"); [apply H |].
  destruct (String.eqb key "ArrowRight"); [apply H | reflexivity].
Qed.

(** Away from zero the arrow keys step from the handle's offset: with the
    handle at a percentage c other than 0, ArrowRight updates the slider
    with c + 5 and ArrowLeft with c - 5. *)
Lemma keydown_steps_from_nonzero (s : slider) (c : Q) :
  left s = Some (Fin c) -> ~ c == 0 ->
  handle (KeyDown "ArrowRight") s = updateSlider (add (Fin c) (Fin 5)) s
  /\ handle (KeyDown "ArrowLeft") s = updateSlider (sub (Fin c) (Fin 5)) s.
Proof.
  intros Hl Hc. cbn [handle]. unfold keydown, parseFloat_left, or_, truthy.
  cbn [String.eqb Ascii.eqb Bool.eqb]. rewrite Hl.
  destruct (Qeq_bool c 0) eqn:E; [apply Qeq_bool_iff in E; contradiction |].
  cbn [negb]. split; reflexivity.
Qed.

Lemma keydown_steps_from_unset (s : slider) :
  left s = None ->
  left (handle (KeyDown "ArrowRight") s) = Some (Fin 55)
  /\ left (handle (KeyDown "ArrowLeft") s) = Some (Fin 45).
Proof.
  intros Hl. simpl. unfold keydown, parseFloat_left. simpl. rewrite Hl.
  split; reflexivity.
Qed.

(** C5.  The keyboard step at the left edge.  ArrowRight at 50 gives 55 and
    ArrowLeft at 3 gives 0; but once the handle is at 0 the handler reads
    its offset as 50 (a parsed 0 is falsy, so the default takes over):
    ArrowRight then gives 55 and ArrowLeft 45, where 0+5 clamped is 5 and
    0-5 clamped is 0. *)
Theorem keydown_at_zero_steps_from_50 (s : slider) :
  left (handle (KeyDown "ArrowRight") (updateSlider (Fin 50) s)) = Some (Fin 55)
  /\ left (handle (KeyDown "ArrowLeft") (updateSlider (Fin 3) s)) = Some (Fin 0)
  /\ left (handle (KeyDown "ArrowRight")
             (handle (KeyDown "ArrowLeft") (updateSlider (Fin 3) s)))
     = Some (Fin 55)
  /\ left (handle (KeyDown "ArrowLeft")
             (handle (KeyDown "ArrowLeft") (updateSlider (Fin 3) s)))
     = Some (Fin 45)
  /\ left (updateSlider (add (Fin 0) (Fin 5)) s) = Some (Fin 5).
Proof. repeat split; reflexivity. Qed.

Lemma handle_attrs (ev : event) (s : slider) : attrs (handle ev s) = attrs s.
Proof.
  destruct ev; cbn [handle]; try unfold keydown;
    repeat match goal with
           | |- context [if ?b then _ else _] => destruct b
           end;
    rewrite ?updateSlider_attrs; reflexivity.
Qed.

Lemma run_attrs (evs : list event) (s : slider) : attrs (run evs s) = attrs s.
Proof.
  revert s. induction evs as [|ev evs IH]; intros s; [reflexivity |].
  change (run (ev :: evs) s) with (run evs (handle ev s)).
  rewrite IH. apply handle_attrs.
Qed.

(** C6, at an input.  After setup, moving the slider to 30 writes 30 to the
    handle while [aria-valuenow] still reads 50. *)
Lemma updateSlider_aria_valuenow_stale :
  left at_30 = Some (Fin 30)
  /\ attrs at_30 !! "aria-valuenow" = Some "50"
  /\ aria_valuenow at_30 = Some (Fin 50)
  /\ aria_valuenow at_30 <> left at_30.
Proof.
  vm_compute. repeat split; try reflexivity. discriminate.
Qed.

(** C6, amended.  [updateSlider] writes the clamped percentage to the clip
    boundary and to the handle only; it does not touch the container's
    attributes, and neither does any pointer, touch or key handler.
    [aria-valuenow] is written once, by the setup, and reads 50 after
    every later update. *)
Theorem aria_valuenow_fixed_at_setup (p : num) (evs : list event) (s : slider) :
  attrs (updateSlider p s) = attrs s
  /\ attrs (run evs (initContainer s)) !! "aria-valuenow" = Some "50"
  /\ aria_valuenow (run evs (initContainer s)) = Some (Fin 50).
Proof.
  split; [apply updateSlider_attrs |].
  assert (H : attrs (run evs (initContainer s)) !! "aria-valuenow" = Some "50").
  { rewrite run_attrs. simpl. apply lookup_insert_eq. }
  split; [exact H |].
  unfold aria_valuenow. rewrite H. reflexivity.
Qed.

End Slider.

(** ** Regular expressions: [test] decides [matches] *)
Section Regex.
Import JS JSString.

Lemma matches_cat_inv (r1 r2 : regex) (s : str) :
  matches (Cat r1 r2) s ->
  exists s1 s2, s = s1 ++ s2 /\ matches r1 s1 /\ matches r2 s2.
Proof. inversion 1; subst; eauto. Qed.

Lemma matches_alt_inv (r1 r2 : regex) (s : str) :
  matches (Alt r1 r2) s -> matches r1 s \/ matches r2 s.
Proof. inversion 1; subst; auto. Qed.

Lemma matches_class_inv (p : N -> bool) (s : str) :
  matches (Class p) s -> exists c, s = [c] /\ p c = true.
Proof. inversion 1; subst; eauto. Qed.

Lemma matches_eps_inv (s : str) : matches Eps s -> s = [].
Proof. inversion 1; reflexivity. Qed.

Lemma nullable_matches (r : regex) : nullable r = true <-> matches r [].
Proof.
  induction r as [| |p|r1 IH1 r2 IH2|r1 IH1 r2 IH2|r IH]; simpl.
  - split; [discriminate | inversion 1].
  - split; [constructor | reflexivity].
  - split; [discriminate | inversion 1].
  - rewrite andb_true_iff, IH1, IH2. split.
    + intros [H1 H2]. apply (m_cat r1 r2 [] [] H1 H2).
    + intros H. apply matches_cat_inv in H as (s1 & s2 & Hs & H1 & H2).
      symmetry in Hs. apply app_eq_nil in Hs as [-> ->]. auto.
  - rewrite orb_true_iff, IH1, IH2. split.
    + intros [H|H]; [apply m_alt_l | apply m_alt_r]; exact H.
    + apply matches_alt_inv.
  - split; [constructor | reflexivity].
Qed.

Lemma star_cons_inv (r : regex) (c : N) (s : str) :
  matches (Star r) (c :: s) ->
  exists s1 s2, s = s1 ++ s2 /\ matches r (c :: s1) /\ matches (Star r) s2.
Proof.
  remember (Star r) as r' eqn:Hr. remember (c :: s) as s' eqn:Hs.
  intros H. revert s Hr Hs.
  induction H as [| | | | | |r0 s1 s2 H1 _ H2 IH2]; intros u Hr Hu;
    try discriminate.
  injection Hr as ->.
  destruct s1 as [|c1 s1]; simpl in Hu.
  - apply IH2; [reflexivity | exact Hu].
  - injection Hu as -> <-. exists s1, s2. auto.
Qed.

Lemma deriv_matches (c : N) (r : regex) (s : str) :
  matches (deriv c r) s <-> matches r (c :: s).
Proof.
  revert s.
  induction r as [| |p|r1 IH1 r2 IH2|r1 IH1 r2 IH2|r IH]; intros s; simpl.
  - split; inversion 1.
  - split; inversion 1.
  - destruct (p c) eqn:Hp.
    + split.
      * intros H. apply matches_eps_inv in H. subst s. constructor. exact Hp.
      * intros H. apply matches_class_inv in H as (c' & Hc & _).
        injection Hc as _ ->. constructor.
    + split; [inversion 1 |].
      intros H. apply matches_class_inv in H as (c' & Hc & Hp').
      injection Hc as -> _. congruence.
  - assert (Hleft : matches (Cat (deriv c r1) r2) s ->
                    matches (Cat r1 r2) (c :: s)).
    { intros H. apply matches_cat_inv in H as (s1 & s2 & -> & H1 & H2).
      apply IH1 in H1. apply (m_cat r1 r2 (c :: s1) s2 H1 H2). }
    assert (Hback : matches (Cat r1 r2) (c :: s) ->
                    matches (Cat (deriv c r1) r2) s
                    \/ (matches r1 [] /\ matches (deriv c r2) s)).
    { intros H. apply matches_cat_inv in H as (s1 & s2 & Hs & H1 & H2).
      destruct s1 as [|c1 s1]; simpl in Hs.
      - subst s2. right. split; [exact H1 | apply IH2; exact H2].
      - injection Hs as <- ->. left.
        constructor; [apply IH1; exact H1 | exact H2]. }
    destruct (nullable r1) eqn:Hn.
    + split.
      * intros H. apply matches_alt_inv in H as [H | H]; [auto |].
        apply (m_cat r1 r2 [] (c :: s)); [apply nullable_matches; exact Hn |].
        apply IH2. exact H.
      * intros H. destruct (Hback H) as [H1 | [_ H2]];
          [apply m_alt_l | apply m_alt_r]; assumption.
    + split; [exact Hleft |].
      intros H. destruct (Hback H) as [H1 | [H1 _]]; [exact H1 |].
      apply nullable_matches in H1. congruence.
  - split; intros H; apply matches_alt_inv in H as [H | H];
      first [apply m_alt_l, IH1; exact H | apply m_alt_r, IH2; exact H].
  - split.
    + intros H. apply matches_cat_inv in H as (s1 & s2 & -> & H1 & H2).
      apply IH in H1. apply (m_star_app r (c :: s1) s2 H1 H2).
    + intros H. destruct (star_cons_inv r c s H) as (s1 & s2 & -> & H1 & H2).
      constructor; [apply IH; exact H1 | exact H2].
Qed.

Lemma test_matches (r : regex) (s : str) : test r s = true <-> matches r s.
Proof.
  revert r. induction s as [|c s IH]; intros r; simpl.
  - apply nullable_matches.
  - rewrite IH. apply deriv_matches.
Qed.

Lemma matches_star_class (p : N -> bool) (s : str) :
  matches (Star (Class p)) s <-> Forall (fun c => p c = true) s.
Proof.
  split.
  - remember (Star (Class p)) as r eqn:Hr. intros H.
    induction H as [| | | | | |r0 s1 s2 H1 _ H2 IH2]; try discriminate.
    + constructor.
    + injection Hr as ->. apply matches_class_inv in H1 as (c & -> & Hc).
      constructor; [exact Hc | apply IH2; reflexivity].
  - induction 1 as [|c s Hc _ IH]; [constructor |].
    apply (m_star_app (Class p) [c] s); [constructor; exact Hc | exact IH].
Qed.

Lemma matches_plus_class (p : N -> bool) (s : str) :
  matches (Plus (Class p)) s <-> s <> [] /\ Forall (fun c => p c = true) s.
Proof.
  unfold Plus. split.
  - intros H. apply matches_cat_inv in H as (s1 & s2 & -> & H1 & H2).
    apply matches_class_inv in H1 as (c & -> & Hc).
    apply matches_star_class in H2.
    split; [discriminate | constructor; assumption].
  - intros [Hne Hall]. destruct Hall as [|c s Hc Hs]; [congruence |].
    apply (m_cat (Class p) (Star (Class p)) [c] s);
      [constructor; exact Hc | apply matches_star_class; exact Hs].
Qed.

Lemma matches_char (a : N) (s : str) : matches (Class (N.eqb a)) s <-> s = [a].
Proof.
  split.
  - intros H. apply matches_class_inv in H as (c & -> & Hc).
    apply N.eqb_eq in Hc. congruence.
  - intros ->. constructor. apply N.eqb_refl.
Qed.

(** X16.  The email pattern in words: a local part, an at sign, a domain, a dot
    and a last part, all three non-empty and free of blanks and at signs
    (the domain and the last part may hold further dots). *)
Lemma isValidEmail_spec (v : str) :
  ContactForm.isValidEmail v = true <->
  exists l d t,
    v = l ++ at_sign :: d ++ dot :: t
    /\ l <> [] /\ d <> [] /\ t <> []
    /\ Forall (fun c => not_space_at c = true) (l ++ d ++ t).
Proof.
  unfold ContactForm.isValidEmail, ContactForm.emailRegex.
  rewrite test_matches. split.
  - intros H.
    apply matches_cat_inv in H as (l & s2 & -> & Hl & H).
    apply matches_cat_inv in H as (a & s3 & -> & Ha & H).
    apply matches_cat_inv in H as (d & s4 & -> & Hd & H).
    apply matches_cat_inv in H as (o & t & -> & Ho & Ht).
    apply matches_char in Ha, Ho. subst a o.
    apply matches_plus_class in Hl as [Hl1 Hl2], Hd as [Hd1 Hd2], Ht as [Ht1 Ht2].
    exists l, d, t. split; [reflexivity |].
    repeat split; try assumption.
    rewrite !Forall_app. auto.
  - intros (l & d & t & -> & Hl & Hd & Ht & Hall).
    rewrite !Forall_app in Hall. destruct Hall as (Hl2 & Hd2 & Ht2).
    apply (m_cat _ _ l (at_sign :: d ++ dot :: t));
      [apply matches_plus_class; auto |].
    apply (m_cat _ _ [at_sign] (d ++ dot :: t)); [apply matches_char; reflexivity |].
    apply (m_cat _ _ d (dot :: t)); [apply matches_plus_class; auto |].
    apply (m_cat _ _ [dot] t); [apply matches_char; reflexivity |].
    apply matches_plus_class; auto.
Qed.

Lemma matches_lit (cs s : str) : matches (Lit cs) s <-> s = cs.
Proof.
  revert s. induction cs as [|c cs IH]; intros s; simpl.
  - split; [apply matches_eps_inv | intros ->; constructor].
  - split.
    + intros H. apply matches_cat_inv in H as (s1 & s2 & -> & H1 & H2).
      apply matches_char in H1 as ->. apply IH in H2 as ->. reflexivity.
    + intros ->. apply (m_cat _ _ [c] cs); [apply matches_char | apply IH];
        reflexivity.
Qed.

Lemma matches_power_class (p : N -> bool) (n : nat) (s : str) :
  matches (Power (Class p) n) s
  <-> length s = n /\ Forall (fun c => p c = true) s.
Proof.
  revert s. induction n as [|n IH]; intros s; simpl.
  - split.
    + intros H. apply matches_eps_inv in H as ->. split; [reflexivity | constructor].
    + intros [Hl _]. destruct s; [constructor | discriminate].
  - split.
    + intros H. apply matches_cat_inv in H as (s1 & s2 & -> & H1 & H2).
      apply matches_class_inv in H1 as (c & -> & Hc).
      apply IH in H2 as [<- Hall]. split; [reflexivity | constructor; assumption].
    + intros [Hl Hall]. destruct Hall as [|c s Hc Hs]; [discriminate |].
      apply (m_cat _ _ [c] s); [constructor; exact Hc |].
      apply IH. split; [simpl in Hl; lia | exact Hs].
Qed.

Lemma matches_opt (r : regex) (s : str) :
  matches (Opt r) s <-> matches r s \/ s = [].
Proof.
  unfold Opt. split.
  - intros H. apply matches_alt_inv in H as [H | H]; [auto |].
    right. apply matches_eps_inv. exact H.
  - intros [H | ->]; [apply m_alt_l; exact H | apply m_alt_r; constructor].
Qed.

(** X17.  The phone pattern in words: once blanks, hyphens and parentheses are
    dropped, an optional prefix +359, 359 or 0 and then 8 or 9 digits. *)
Lemma isValidPhone_spec (phone : str) :
  ContactForm.isValidPhone phone = true <->
  exists pre ds,
    filter (fun c => negb (phone_noise c)) phone = pre ++ ds
    /\ (pre = [] \/ pre = lit "+359" \/ pre = lit "359" \/ pre = lit "0")
    /\ Forall (fun c => is_digit c = true) ds
    /\ (length ds = 8%nat \/ length ds = 9%nat).
Proof.
  unfold ContactForm.isValidPhone, ContactForm.phoneRegex.
  set (clean := filter (fun c => negb (phone_noise c)) phone).
  assert (Hclean : forall c, c ∈ clean -> is_space c = false).
  { intros c Hc. apply list_elem_of_filter in Hc as [Hc _].
    unfold phone_noise in Hc. destruct (is_space c); [contradiction | reflexivity]. }
  rewrite test_matches. split.
  - intros H.
    apply matches_cat_inv in H as (pre & s2 & Heq & Hpre & H).
    apply matches_cat_inv in H as (sp & s3 & -> & Hsp & H).
    apply matches_cat_inv in H as (d8 & d1 & -> & Hd8 & Hd1).
    apply matches_power_class in Hd8 as [Hlen Hall].
    assert (sp = []) as ->.
    { apply matches_opt in Hsp as [Hsp | ->]; [| reflexivity].
      apply matches_class_inv in Hsp as (c & -> & Hc).
      rewrite (Hclean c) in Hc; [discriminate |].
      rewrite Heq. set_solver. }
    exists pre, (d8 ++ d1). split; [exact Heq |]. split.
    { apply matches_opt in Hpre as [Hpre | ->]; [| auto].
      apply matches_alt_inv in Hpre as [Hpre | Hpre];
        [apply matches_lit in Hpre; auto |].
      apply matches_alt_inv in Hpre as [Hpre | Hpre];
        apply matches_lit in Hpre; auto. }
    apply matches_opt in Hd1 as [Hd1 | ->].
    + apply matches_class_inv in Hd1 as (c & -> & Hc).
      split; [apply Forall_app; split; [exact Hall | repeat constructor; exact Hc] |].
      right. rewrite length_app, Hlen. reflexivity.
    + rewrite app_nil_r. auto.
  - intros (pre & ds & Heq & Hpre & Hall & Hlen). rewrite Heq.
    apply m_cat.
    { apply matches_opt. destruct Hpre as [-> | [-> | [-> | ->]]]; [auto | | |];
        left; [apply m_alt_l | apply m_alt_r, m_alt_l | apply m_alt_r, m_alt_r];
        apply matches_lit; reflexivity. }
    apply (m_cat _ _ [] ds); [apply matches_opt; auto |].
    change (Range (Class is_digit) 8 1)
      with (Cat (Power (Class is_digit) 8) (Opt (Class is_digit))).
    destruct Hlen as [Hlen | Hlen].
    + rewrite <- (app_nil_r ds). apply m_cat; [| apply matches_opt; auto].
      apply matches_power_class. auto.
    + rewrite <- (take_drop 8 ds). apply m_cat.
      * apply matches_power_class. split.
        -- rewrite length_take. lia.
        -- apply Forall_take. exact Hall.
      * apply matches_opt. left.
        destruct (drop 8 ds) as [|c [|c' rest]] eqn:Hd.
        -- apply (f_equal length) in Hd. rewrite length_drop in Hd. simpl in Hd. lia.
        -- constructor. apply (Forall_drop _ 8) in Hall. rewrite Hd in Hall.
           inversion Hall; assumption.
        -- apply (f_equal length) in Hd. rewrite length_drop in Hd. simpl in Hd. lia.
Qed.

End Regex.

(** ** The field validator *)
Section Validator.
Import JS JSString ContactForm FieldValidatorSpec.

Lemma check_first_match (f : field) :
  check f = match validate f with
            | None => (true, "")
            | Some r => (false, message r)
            end.
Proof.
  unfold check, validate, rules. simpl.
  destruct (required f && negb (nonempty (trim (value f)))); [reflexivity |].
  destruct (String.eqb (type f) "email" && nonempty (trim (value f))
            && negb (isValidEmail (trim (value f)))); [reflexivity |].
  destruct (String.eqb (type f) "tel" && nonempty (trim (value f))
            && negb (isValidPhone (trim (value f)))); [reflexivity |].
  destruct (String.eqb (name f) "name" && nonempty (trim (value f))
            && (length (trim (value f)) <? 2)%nat); reflexivity.
Qed.

Lemma validateField_result (f : field) (doc : gmap string errorElement) :
  (validateField f doc).1.1 = (check f).1
  /\ (validateField f doc).1.2 = validated f.
Proof.
  unfold validateField, validated, clearErrors, showError.
  destruct (check f) as [[|] m]; simpl.
  - destruct (doc !! errorId f); simpl; split; reflexivity.
  - destruct (doc !! errorId f) as [el|] eqn:E; simpl.
    + change (errorId (set_mark false "false" f)) with (errorId f).
      rewrite lookup_insert_eq. simpl. split; reflexivity.
    + change (errorId (set_mark false "false" f)) with (errorId f).
      rewrite E. simpl. split; reflexivity.
Qed.

Lemma validateField_message (f : field) (doc : gmap string errorElement) :
  textContent <$> (validateField f doc).2 !! errorId f
  = (fun _ => (check f).2) <$> doc !! errorId f.
Proof.
  unfold validateField, clearErrors, showError.
  change (errorId (set_mark false "false" f)) with (errorId f).
  rewrite check_first_match.
  destruct (validate f) as [r|]; simpl;
    destruct (doc !! errorId f) as [el|] eqn:E; simpl;
    change (errorId (set_mark false "false" f)) with (errorId f);
    rewrite ?lookup_insert_eq, ?E; simpl;
    change (errorId (set_mark true "true" (set_mark false "false" f)))
      with (errorId f);
    rewrite ?lookup_insert_eq, ?E; reflexivity.
Qed.

(** The name rule on a field that is neither an email nor a phone: the
    trimmed value must have at least two code units. *)
Lemma check_name_length (f : field) :
  name f = "name" ->
  String.eqb (type f) "email" = false ->
  String.eqb (type f) "tel" = false ->
  nonempty (trim (value f)) = true ->
  check f = if (length (trim (value f)) <? 2)%nat
            then (false, msg_name) else (true, "").
Proof.
  intros Hn He Ht Hv. unfold check. rewrite Hn, He, Ht, Hv. simpl.
  rewrite andb_false_r. reflexivity.
Qed.

(** C2.  [validateField] decides by the first rule that applies, in the
    order required-and-empty, email pattern, phone pattern, name length,
    and is valid when none applies.  It returns for every field: false
    when a rule applies, and then the field is marked, [aria-invalid] is
    true and the error element (when present) shows that rule's message;
    true otherwise, with the mark and the message cleared.  The value is
    left alone.  An empty (or all-blank) required field is invalid with
    the required message; a@b.c is a valid email and not-an-email is not;
    0888123456 is a valid phone and 123 is not; in a text field called
    name, A is too short and Al is valid. *)
Theorem validateField_first_match (f : field)
    (doc : gmap string errorElement) (nm ty : string) (req : bool) :
  (match validate f with
   | None =>
       (validateField f doc).1.1 = true
       /\ class_error (validateField f doc).1.2 = false
       /\ aria_invalid (validateField f doc).1.2 = Some "false"
       /\ textContent <$> (validateField f doc).2 !! errorId f
          = (fun _ => "") <$> doc !! errorId f
   | Some r =>
       (validateField f doc).1.1 = false
       /\ class_error (validateField f doc).1.2 = true
       /\ aria_invalid (validateField f doc).1.2 = Some "true"
       /\ textContent <$> (validateField f doc).2 !! errorId f
          = (fun _ => message r) <$> doc !! errorId f
   end)
  /\ value (validateField f doc).1.2 = value f
  /\ check (input nm ty (lit "") true) = (false, msg_required)
  /\ check (input nm ty (lit "   ") true) = (false, msg_required)
  /\ check (input nm "email" (lit "a@b.c") req) = (true, "")
  /\ check (input nm "email" (lit "not-an-email") req) = (false, msg_email)
  /\ check (input nm "tel" (lit "0888123456") req) = (true, "")
  /\ check (input nm "tel" (lit "123") req) = (false, msg_phone)
  /\ check (input "name" "text" (lit "A") req) = (false, msg_name)
  /\ check (input "name" "text" (lit "Al") req) = (true, "").
Proof.
  destruct (validateField_result f doc) as [Hv Hf].
  pose proof (validateField_message f doc) as Hm.
  pose proof (check_first_match f) as Hc.
  split; [| split].
  - rewrite Hv, Hf, Hm. unfold validated. rewrite Hc.
    destruct (validate f); simpl; repeat split; reflexivity.
  - rewrite Hf. unfold validated. destruct (check f).1; reflexivity.
  - unfold check; cbn [name type value required input].
    repeat split;
      destruct req; destruct (String.eqb nm "name");
      vm_compute; reflexivity.
Qed.

End Validator.

(** ** The submit handler *)
Section Submission.
Import JS JSString ContactForm.

Lemma validateForm_loop_spec (fs : list field)
    (doc : gmap string errorElement) (b : bool) :
  (validateForm_loop fs doc b).1.1 = revalidated <$> fs
  /\ (validateForm_loop fs doc b).2 = b && forallb required_ok fs.
Proof.
  revert doc b. induction fs as [|f fs IH]; intros doc b; simpl.
  - split; [reflexivity | symmetry; apply andb_true_r].
  - unfold revalidated at 1, required_ok at 1.
    destruct (required f) eqn:Hr.
    + destruct (validateField_result f doc) as [Hv Hf].
      destruct (validateField f doc) as [[ok f'] doc']. simpl in Hv, Hf.
      subst ok f'.
      specialize (IH doc' (if negb (check f).1 then false else b)).
      destruct (validateForm_loop fs doc' _) as [[rest' doc''] v].
      simpl in *. destruct IH as [-> ->].
      split; [reflexivity |].
      destruct (check f).1, b; reflexivity.
    + specialize (IH doc b).
      destruct (validateForm_loop fs doc b) as [[rest' doc'] v].
      simpl in *. destruct IH as [-> ->]. split; reflexivity.
Qed.

Lemma validateForm_spec (st : form) :
  (validateForm st).1 = forallb required_ok (fields st)
  /\ fields (validateForm st).2 = revalidated <$> fields st
  /\ submitButton (validateForm st).2 = submitButton st
  /\ banners (validateForm st).2 = banners st
  /\ focused (validateForm st).2 = focused st
  /\ scrolledIntoView (validateForm st).2 = scrolledIntoView st.
Proof.
  unfold validateForm.
  destruct (validateForm_loop_spec (fields st) (errors st) true) as [Hf Hv].
  destruct (validateForm_loop (fields st) (errors st) true) as [[fs doc] v].
  simpl in *. subst. repeat split; reflexivity.
Qed.

Lemma revalidated_value (f : field) : value (revalidated f) = value f.
Proof.
  unfold revalidated, validated.
  destruct (required f), (check f).1; reflexivity.
Qed.

Lemma revalidated_mark (f : field) :
  class_error (revalidated f)
  = if required f then negb (check f).1 else class_error f.
Proof.
  unfold revalidated, validated.
  destruct (required f), (check f).1; reflexivity.
Qed.




Lemma forallb_required_ok_true (fs : list field) :
  (forall f, f ∈ fs -> required f = true -> (check f).1 = true) ->
  forallb required_ok fs = true.
Proof.
  intros H. apply forallb_forall. intros f Hin.
  apply list_elem_of_In in Hin. unfold required_ok.
  destruct (required f) eqn:Hr; [| reflexivity].
  simpl. auto.
Qed.









(** C10.  Only required controls are validated at submit time.  When
    every required field is valid, [submitForm] is called, whatever the
    optional controls hold, and each optional control is passed over
    untouched: it keeps its value and whatever mark it had. *)
Theorem handleSubmit_skips_optional (st : form) :
  (forall f, f ∈ fields st -> required f = true -> (check f).1 = true) ->
  submitForm_invoked (handleSubmit st) = true
  /\ (validateForm st).1 = true
  /\ forall j fj, fields st !! j = Some fj -> required fj = false ->
                  fields (form_of (handleSubmit st)) !! j = Some fj.
Proof.
  intros Hall.
  destruct (validateForm_spec st) as (Hv & Hfs & _).
  pose proof (forallb_required_ok_true _ Hall) as Htrue.
  unfold handleSubmit.
  destruct (validateForm st) as [ok st1]. simpl in *. subst ok.
  rewrite Htrue. simpl.
  assert (Hkeep : forall j fj, fields st !! j = Some fj -> required fj = false ->
                               fields st1 !! j = Some fj).
  { intros j fj Hj Hr. rewrite Hfs, list_lookup_fmap, Hj. simpl.
    unfold revalidated. rewrite Hr. reflexivity. }
  unfold submitForm_start.
  destruct (submitButton st1); simpl; repeat split; auto.
Qed.

Lemma handleSubmit_skips_optional_witness :
  (validateField (input "email" "email" (lit "not-an-email") false) ∅).1.1 = false
  /\ (validateField (input "phone" "tel" (lit "123") false) ∅).1.1 = false
  /\ submitForm_invoked (handleSubmit form_bad_optional) = true
  /\ (validateForm form_bad_optional).1 = true
  /\ forall j fj, fields form_bad_optional !! j = Some fj -> required fj = false ->
                  fields (form_of (handleSubmit form_bad_optional)) !! j = Some fj.
Proof.
  split; [vm_compute; reflexivity |].
  split; [vm_compute; reflexivity |].
  apply (handleSubmit_skips_optional form_bad_optional).
  intros f Hin Hr. simpl in Hin.
  repeat (apply elem_of_cons in Hin as [-> | Hin];
          [first [vm_compute; reflexivity | discriminate Hr] |]).
  inversion Hin.
Defined.

(** C4.  A run of [submitForm] on a form with a submit button disables
    the button and shows the pending label while the submission is
    awaited; when the submission settles, resolved or rejected, and
    whatever happened to the form in between, the button is enabled
    again and shows the label it had when the run began.  A resolved
    submission shows the success message and resets the fields, a rejected
    one shows the error message and keeps them. *)
Theorem submitForm_restores_button (st : form) (b : button)
    (fd : list (string * str)) :
  submitButton st = Some b ->
  exists (st1 : form) (k : suspended),
    submitForm_start fd st = Some (st1, k)
    /\ submitButton st1 = Some {| disabled := true; label := "Изпращане..." |}
    /\ fields st1 = fields st
    /\ (forall o : outcome,
          submitButton (submitForm_resume o k st1)
          = Some {| disabled := false; label := label b |})
    /\ (forall (o : outcome) (st2 : form),
          is_Some (submitButton st2) ->
          submitButton (submitForm_resume o k st2)
          = Some {| disabled := false; label := label b |})
    /\ banners (submitForm_resume Resolved k st1) = SuccessMessage :: banners st
    /\ fields (submitForm_resume Resolved k st1) = reset_field <$> fields st
    /\ banners (submitForm_resume Rejected k st1) = ErrorMessage :: banners st
    /\ fields (submitForm_resume Rejected k st1) = fields st.
Proof.
  intros Hb. unfold submitForm_start. rewrite Hb.
  eexists _, _. split; [reflexivity |].
  split; [simpl; rewrite Hb; reflexivity |].
  split; [reflexivity |].
  split.
  { intros [|]; simpl; rewrite Hb; reflexivity. }
  split.
  { intros [|] st2 [b2 H2]; simpl; rewrite H2; reflexivity. }
  repeat split; reflexivity.
Qed.

Lemma submitForm_restores_button_witness :
  exists (st1 : form) (k : suspended),
    submitForm_start (FormData form_bad_optional) form_bad_optional = Some (st1, k)
    /\ submitButton st1 = Some {| disabled := true; label := "Изпращане..." |}
    /\ fields st1 = fields form_bad_optional
    /\ (forall o : outcome,
          submitButton (submitForm_resume o k st1)
          = Some {| disabled := false; label := "Send" |})
    /\ (forall (o : outcome) (st2 : form),
          is_Some (submitButton st2) ->
          submitButton (submitForm_resume o k st2)
          = Some {| disabled := false; label := "Send" |})
    /\ banners (submitForm_resume Resolved k st1)
       = SuccessMessage :: banners form_bad_optional
    /\ fields (submitForm_resume Resolved k st1)
       = reset_field <$> fields form_bad_optional
    /\ banners (submitForm_resume Rejected k st1)
       = ErrorMessage :: banners form_bad_optional
    /\ fields (submitForm_resume Rejected k st1) = fields form_bad_optional.
Proof.
  apply (submitForm_restores_button form_bad_optional
           {| disabled := false; label := "Send" |}).
  reflexivity.
Defined.

End Submission.

(** ** The reveal observer *)
Section Reveal.
Import ScrollAnimations.

Lemma on_entry_mono (s : state) (e : entry) :
  (animated s ⊆ animated (on_entry s e))
  /\ (observed (on_entry s e) ⊆ observed s).
Proof.
  unfold on_entry. destruct (isIntersecting e); simpl; set_solver.
Qed.

Lemma callback_mono (es : list entry) (s : state) :
  (animated s ⊆ animated (callback es s))
  /\ (observed (callback es s) ⊆ observed s).
Proof.
  revert s. induction es as [|e es IH]; intros s; simpl; [set_solver |].
  destruct (on_entry_mono s e), (IH (on_entry s e)). set_solver.
Qed.

Lemma callback_reveals (es : list entry) (s : state) (e : entry) :
  e ∈ es -> isIntersecting e = true ->
  (target e ∈ animated (callback es s)) /\ (target e ∉ observed (callback es s)).
Proof.
  revert s. induction es as [|e' es IH]; intros s Hin Hi.
  - inversion Hin.
  - apply elem_of_cons in Hin as [<- | Hin]; [| apply IH; assumption].
    simpl. destruct (callback_mono es (on_entry s e)) as [Ha Ho].
    assert ((target e ∈ animated (on_entry s e))
            /\ (target e ∉ observed (on_entry s e))) as [H1 H2].
    { unfold on_entry. rewrite Hi. simpl. set_solver. }
    set_solver.
Qed.

(** Entries of other targets leave [t] alone. *)
Lemma callback_other (t : nat) (es : list entry) (s : state) :
  (forall e, e ∈ es -> target e <> t) ->
  (exists l, fired (callback es s) = fired s ++ l /\ (t ∉ l))
  /\ (t ∈ animated (callback es s) <-> t ∈ animated s).
Proof.
  revert s. induction es as [|e es IH]; intros s Hne; simpl.
  - split; [exists []; rewrite app_nil_r; split; [reflexivity | apply not_elem_of_nil]
           | reflexivity].
  - assert (He : target e <> t) by (apply Hne; left).
    destruct (IH (on_entry s e)) as [[l [Hl Hnl]] Han].
    { intros e' He'. apply Hne. right. exact He'. }
    rewrite Hl, Han. unfold on_entry.
    destruct (isIntersecting e); simpl.
    + split; [| set_solver].
      exists (target e :: l). rewrite <- app_assoc. split; [reflexivity |].
      apply not_elem_of_cons. split; [congruence | exact Hnl].
    + split; [exists l; auto | reflexivity].
Qed.

Lemma notify_mono (s : state) (changes : list entry) :
  (animated s ⊆ animated (notify s changes))
  /\ (observed (notify s changes) ⊆ observed s).
Proof. apply callback_mono. Qed.

Lemma notify_unobserved (t : nat) (s : state) (changes : list entry) :
  t ∉ observed s ->
  (forall e, e ∈ deliver s changes -> target e <> t)
  /\ (exists l, fired (notify s changes) = fired s ++ l /\ (t ∉ l))
  /\ (t ∈ animated (notify s changes) <-> t ∈ animated s)
  /\ (t ∉ observed (notify s changes)).
Proof.
  intros Hno.
  assert (Hd : forall e, e ∈ deliver s changes -> target e <> t).
  { intros e He. apply list_elem_of_filter in He as [Ho _]. congruence. }
  split; [exact Hd |].
  destruct (callback_other t (deliver s changes) s Hd) as [Hf Ha].
  destruct (notify_mono s changes) as [_ Ho].
  split; [exact Hf |]. split; [exact Ha |]. set_solver.
Qed.

Lemma run_unobserved (t : nat) (batches : list (list entry)) (s : state) :
  t ∉ observed s ->
  (exists l, fired (run s batches) = fired s ++ l /\ (t ∉ l))
  /\ (t ∈ animated (run s batches) <-> t ∈ animated s)
  /\ (t ∉ observed (run s batches)).
Proof.
  revert s. induction batches as [|b bs IH]; intros s Hno.
  - simpl. split; [| tauto].
    exists []. rewrite app_nil_r. split; [reflexivity | apply not_elem_of_nil].
  - change (run s (b :: bs)) with (run (notify s b) bs).
    destruct (notify_unobserved t s b Hno) as (_ & [l1 [H1 Hn1]] & Ha & Ho).
    destruct (IH (notify s b) Ho) as ([l2 [H2 Hn2]] & Ha2 & Ho2).
    split; [| split; [tauto | exact Ho2]].
    exists (l1 ++ l2). rewrite H2, H1, <- app_assoc. split; [reflexivity |].
    apply not_elem_of_app. auto.
Qed.

Lemma transitions_revealed (t : nat) (batches : list (list entry)) (s : state) :
  t ∈ animated s -> transitions t (trace s batches) = 0%nat.
Proof.
  revert s. induction batches as [|b bs IH]; intros s Hin; [reflexivity |].
  destruct (notify_mono s b) as [Ha _].
  change (trace s (b :: bs)) with (s :: trace (notify s b) bs).
  cbn [transitions].
  destruct (trace (notify s b) bs) as [|s' tr] eqn:Htr; [reflexivity |].
  rewrite <- Htr, IH by set_solver.
  rewrite bool_decide_eq_false_2; [reflexivity | tauto].
Qed.

Lemma transitions_once (t : nat) (batches : list (list entry)) (s : state) :
  (transitions t (trace s batches) <= 1)%nat.
Proof.
  revert s. induction batches as [|b bs IH]; intros s; [simpl; lia |].
  change (trace s (b :: bs)) with (s :: trace (notify s b) bs).
  cbn [transitions].
  destruct (trace (notify s b) bs) as [|s' tr] eqn:Htr; [lia |].
  assert (Hs' : s' = notify s b).
  { destruct bs; simpl in Htr; congruence. }
  rewrite <- Htr. case_bool_decide as Hd.
  - rewrite transitions_revealed; [lia |]. rewrite <- Hs'. tauto.
  - specialize (IH (notify s b)). lia.
Qed.

(** C7.  A target goes from not revealed to revealed at most once along
    any sequence of intersection reports.  When an observed target is
    reported as intersecting, the callback marks it revealed and
    unobserves it; from then on it stays revealed and unobserved, no
    report about it reaches the callback, and the reveal branch never
    runs for it again, whatever the page reports later. *)
Theorem reveal_at_most_once (s : state) (t : nat) (changes : list entry)
    (later batches : list (list entry)) :
  t ∈ observed s ->
  {| target := t; isIntersecting := true |} ∈ changes ->
  (transitions t (trace s batches) <= 1)%nat
  /\ (t ∈ animated (notify s changes))
  /\ (t ∉ observed (notify s changes))
  /\ (t ∈ animated (run (notify s changes) later))
  /\ (t ∉ observed (run (notify s changes) later))
  /\ (forall more e, e ∈ deliver (run (notify s changes) later) more ->
                     target e <> t)
  /\ (exists l, fired (run (notify s changes) later)
                = fired (notify s changes) ++ l /\ (t ∉ l))
  /\ transitions t (trace (notify s changes) later) = 0%nat.
Proof.
  intros Hobs Hin.
  set (e := {| target := t; isIntersecting := true |}) in *.
  assert (Hd : e ∈ deliver s changes).
  { apply list_elem_of_filter. split; [exact Hobs | exact Hin]. }
  destruct (callback_reveals (deliver s changes) s e Hd eq_refl) as [Ha Ho].
  change (callback (deliver s changes) s) with (notify s changes) in Ha, Ho.
  simpl in Ha, Ho.
  destruct (run_unobserved t later (notify s changes) Ho) as (Hf & Han & Hno).
  split; [apply transitions_once |].
  split; [exact Ha |]. split; [exact Ho |].
  split; [apply Han; exact Ha |]. split; [exact Hno |].
  split.
  { intros more e' He'. apply (notify_unobserved t _ more Hno). exact He'. }
  split; [exact Hf |].
  apply transitions_revealed. exact Ha.
Qed.

Lemma reveal_at_most_once_witness :
  (transitions 2 (trace three_targets (enters :: leaves_and_returns)) <= 1)%nat
  /\ (2%nat ∈ animated (notify three_targets enters))
  /\ (2%nat ∉ observed (notify three_targets enters))
  /\ (2%nat ∈ animated (run (notify three_targets enters) leaves_and_returns))
  /\ (2%nat ∉ observed (run (notify three_targets enters) leaves_and_returns))
  /\ (forall more e,
        e ∈ deliver (run (notify three_targets enters) leaves_and_returns) more ->
        target e <> 2%nat)
  /\ (exists l, fired (run (notify three_targets enters) leaves_and_returns)
                = fired (notify three_targets enters) ++ l /\ (2%nat ∉ l))
  /\ transitions 2 (trace (notify three_targets enters) leaves_and_returns) = 0%nat.
Proof.
  apply (reveal_at_most_once three_targets 2%nat enters leaves_and_returns
           (enters :: leaves_and_returns)).
  - unfold three_targets, init. simpl. set_solver.
  - unfold enters. apply list_elem_of_singleton. reflexivity.
Defined.

End Reveal.

(** ** The scroll-depth tracker *)
Section ScrollDepth.
Import JS Analytics.

Lemma le_refl (a : num) : le a a.
Proof. left. reflexivity. Qed.

Lemma le_trans (a b c : num) : le a b -> le b c -> le a c.
Proof.
  intros [-> | Hab] [<- | Hbc]; try (left; reflexivity); right; auto.
  eapply lt_trans; eassumption.
Qed.

Lemma milestones_keep_maxScroll (p : num) (ms : list Z) (s : state) :
  maxScroll (foldl (on_milestone p) s ms) = maxScroll s.
Proof.
  revert s. induction ms as [|m ms IH]; intros s; [reflexivity |].
  simpl. rewrite IH. unfold on_milestone.
  destruct (ge p (Fin (inject_Z m)) && negb (bool_decide (m ∈ tracked s)));
    reflexivity.
Qed.

Lemma trackScroll_body_monotone (m : metrics) (s : state) :
  le (maxScroll s) (maxScroll (trackScroll_body m s)).
Proof.
  unfold trackScroll_body.
  destruct (gt _ (maxScroll s)) eqn:Hgt.
  - rewrite milestones_keep_maxScroll. right. exact Hgt.
  - apply le_refl.
Qed.

Lemma handle_maxScroll (ev : event) (s : state) :
  maxScroll (handle ev s)
  = match ev with
    | Scroll m =>
        if inThrottle s then maxScroll s
        else maxScroll (trackScroll_body m s)
    | _ => maxScroll s
    end.
Proof.
  destruct ev as [m| |c|h]; simpl; try reflexivity.
  - unfold trackScroll. destruct (inThrottle s); reflexivity.
  - destruct c; reflexivity.
Qed.

Lemma handle_monotone (ev : event) (s : state) :
  le (maxScroll s) (maxScroll (handle ev s)).
Proof.
  rewrite handle_maxScroll. destruct ev; try apply le_refl.
  destruct (inThrottle s); [apply le_refl | apply trackScroll_body_monotone].
Qed.

Lemma run_monotone (evs : list event) (s : state) :
  le (maxScroll s) (maxScroll (run evs s)).
Proof.
  revert s. induction evs as [|ev evs IH]; intros s; [apply le_refl |].
  change (run (ev :: evs) s) with (run evs (handle ev s)).
  eapply le_trans; [apply handle_monotone | apply IH].
Qed.

(** C8.  The greatest scroll depth never decreases: after any event, and
    after any sequence of events, it is at least what it was before.  It
    is written by the throttled scroll handler only: a scroll event while
    the throttle is cooling down, the throttle's timer, a form submission
    and a phone click all leave it as it is.  Starting from 0 it stays at
    least 0. *)
Theorem maxScroll_monotone (ev : event) (evs : list event) (s : state) :
  le (maxScroll s) (maxScroll (handle ev s))
  /\ le (maxScroll s) (maxScroll (run evs s))
  /\ maxScroll (handle ev s)
     = match ev with
       | Scroll m =>
           if inThrottle s then maxScroll s
           else maxScroll (trackScroll_body m s)
       | _ => maxScroll s
       end
  /\ le (Fin 0) (maxScroll (run evs init)).
Proof.
  split; [apply handle_monotone |].
  split; [apply run_monotone |].
  split; [apply handle_maxScroll |].
  apply (run_monotone evs init).
Qed.

End ScrollDepth.

(** ** Start-up *)
Section Startup.
Import App.

Lemma try_block_spec (throws : component -> bool) (cs : list component) :
  exists rest : list component,
    cs = (try_block throws cs).1 ++ rest
    /\ (forall c, c ∈ (try_block throws cs).1 -> throws c = false)
    /\ match rest with
       | [] => (try_block throws cs).2 = None
       | c :: _ => throws c = true /\ (try_block throws cs).2 = Some c
       end.
Proof.
  induction cs as [|c cs IH]; simpl.
  - exists []. split; [reflexivity |]. split; [| reflexivity].
    intros c Hc. inversion Hc.
  - destruct (throws c) eqn:Hc.
    + exists (c :: cs). simpl. split; [reflexivity |].
      split; [| auto]. intros c' Hc'. inversion Hc'.
    + destruct IH as [rest (Heq & Hok & Hrest)].
      destruct (try_block throws cs) as [done thrown]. simpl in *.
      exists rest. split; [congruence |]. split; [| exact Hrest].
      intros c' Hc'. apply elem_of_cons in Hc' as [-> | Hc']; auto.
Qed.

Lemma components_NoDup : NoDup components.
Proof.
  unfold components. repeat (apply NoDup_cons; split; [set_solver |]).
  apply NoDup_nil_2.
Qed.

(** C9, at an input.  In a browser without IntersectionObserver the
    constructor of AccessibilityEnhancements throws; the error is caught
    and logged, but Analytics, which would not have thrown, is never
    constructed. *)
Lemma initializeApp_not_isolated :
  throws_on old_browser AccessibilityEnhancements = true
  /\ throws_on old_browser Analytics = false
  /\ console (initializeApp (throws_on old_browser))
     = [ErrorInitializing AccessibilityEnhancements]
  /\ initialized (initializeApp (throws_on old_browser))
     = [MobileMenu; HeaderScrollEffect; SmoothScroll; ContactForm;
        ScrollAnimations; PortfolioGallery; PerformanceOptimizer]
  /\ (Analytics ∉ initialized (initializeApp (throws_on old_browser))).
Proof.
  repeat split; try reflexivity.
  vm_compute. set_solver.
Qed.

(** C9, amended.  [initializeApp] always returns: an exception thrown by a
    constructor is caught and logged.  The components constructed are
    exactly those that come before the first constructor that throws;
    they stay initialized, and that constructor and every component after
    it are not initialized.  When no constructor throws, all nine are
    initialized and success is logged. *)
Theorem initializeApp_stops_at_first_throw (throws : component -> bool) :
  exists rest : list component,
    components = initialized (initializeApp throws) ++ rest
    /\ (forall c, c ∈ initialized (initializeApp throws) -> throws c = false)
    /\ (forall c, c ∈ rest -> c ∉ initialized (initializeApp throws))
    /\ match rest with
       | [] => console (initializeApp throws) = [LogInitialized]
       | c :: _ =>
           throws c = true
           /\ console (initializeApp throws) = [ErrorInitializing c]
       end.
Proof.
  destruct (try_block_spec throws components) as [rest (Heq & Hok & Hrest)].
  assert (Hinit : initialized (initializeApp throws)
                  = (try_block throws components).1).
  { unfold initializeApp.
    destruct (try_block throws components) as [done [c|]]; reflexivity. }
  assert (Hcons : console (initializeApp throws)
                  = match (try_block throws components).2 with
                    | None => [LogInitialized]
                    | Some c => [ErrorInitializing c]
                    end).
  { unfold initializeApp.
    destruct (try_block throws components) as [done [c|]]; reflexivity. }
  exists rest. rewrite Hinit, Hcons.
  split; [exact Heq |]. split; [exact Hok |]. split.
  - intros c Hc Hdone. pose proof components_NoDup as Hnd.
    rewrite Heq in Hnd. apply NoDup_app in Hnd as (_ & Hdisj & _).
    exact (Hdisj c Hdone Hc).
  - destruct rest as [|c rest']; [rewrite Hrest; reflexivity |].
    destruct Hrest as [Ht ->]. split; [exact Ht | reflexivity].
Qed.

End Startup.

(* ===================================================================== *)
(** * Part III.  Further properties of the code                           *)
(* ===================================================================== *)

(** ** debounce and throttle *)
Section TimingFacts.
Import Timing.
Context {A : Type}.

Lemma debounce_calls_only (d : debounced A) (args : list A) (last : A) :
  debounce_run d (Call <$> (args ++ [last]))
  = {| timeout := Some last; passed := passed d |}.
Proof.
  revert d. induction args as [|a args IH]; intros d; [reflexivity |].
  change (debounce_run d (Call <$> ((a :: args) ++ [last])))
    with (debounce_run (debounce_step d (Call a)) (Call <$> (args ++ [last]))).
  rewrite IH. reflexivity.
Qed.

(** X1.  A burst of calls to a debounced function, followed by the timer
    running, calls the wrapped function exactly once, with the arguments of
    the last call of the burst; the earlier calls are discarded and no
    timer stays live. *)
Theorem debounce_burst_passes_last (d : debounced A) (earlier : list A)
    (last : A) :
  debounce_run d ((Call <$> (earlier ++ [last])) ++ [Later])
  = {| timeout := None; passed := passed d ++ [last] |}.
Proof.
  unfold debounce_run. rewrite foldl_app.
  change (foldl debounce_step d (Call <$> (earlier ++ [last])))
    with (debounce_run d (Call <$> (earlier ++ [last]))).
  rewrite debounce_calls_only. reflexivity.
Qed.

(** X2.  Over any sequence of calls and timer runs, a debounced function
    passes on no more calls than timers have run and no more than it has
    received, and every call it passes on carries the arguments of a call
    it received (or of the timer that was live at the start). *)
Theorem debounce_passes_received (d : debounced A)
    (evs : list (debounce_event A)) :
  exists l : list A,
    passed (debounce_run d evs) = passed d ++ l
    /\ (length l <= length (filter (fun ev => is_later ev) evs))%nat
    /\ (length l + live (debounce_run d evs)
        <= length (filter (fun ev => is_call ev) evs) + live d)%nat
    /\ forall a, a ∈ l -> timeout d = Some a \/ Call a ∈ evs.
Proof.
  revert d. induction evs as [|ev evs IH]; intros d.
  - exists []. simpl. rewrite app_nil_r.
    repeat split; try lia. intros a Ha. inversion Ha.
  - change (debounce_run d (ev :: evs))
      with (debounce_run (debounce_step d ev) evs).
    destruct (IH (debounce_step d ev)) as (l & Hl & Hlater & Hcall & Hin).
    destruct ev as [args|].
    + assert (Hf1 : filter (fun ev => is_later ev) (Call args :: evs)
                    = filter (fun ev => is_later ev) evs)
        by (apply filter_cons_False; simpl; tauto).
      assert (Hf2 : filter (fun ev => is_call ev) (Call args :: evs)
                    = Call args :: filter (fun ev => is_call ev) evs)
        by (apply filter_cons_True; exact I).
      rewrite Hf1, Hf2. simpl in *.
      exists l. split; [exact Hl |]. split; [exact Hlater |]. split.
      * unfold live in *. simpl in *. destruct (timeout d); simpl; lia.
      * intros a Ha. destruct (Hin a Ha) as [[= <-] | H]; right;
          [left | right; exact H].
    + assert (Hf1 : filter (fun ev => is_later ev) (Later :: evs)
                    = Later :: filter (fun ev => is_later ev) evs)
        by (apply filter_cons_True; exact I).
      assert (Hf2 : filter (fun ev => is_call ev) (@Later A :: evs)
                    = filter (fun ev => is_call ev) evs)
        by (apply filter_cons_False; simpl; tauto).
      rewrite Hf1, Hf2. unfold live in *. simpl in *.
      destruct (timeout d) as [args|] eqn:Ht; simpl in *.
      * exists (args :: l). rewrite Hl, <- app_assoc. split; [reflexivity |].
        split; [simpl; lia |]. split; [simpl; lia |].
        intros a Ha. apply elem_of_cons in Ha as [-> | Ha]; [left; reflexivity |].
        destruct (Hin a Ha) as [H | H]; [discriminate | right; right; exact H].
      * rewrite Ht in *. simpl in *.
        exists l. split; [exact Hl |].
        split; [lia |]. split; [lia |].
        intros a Ha. destruct (Hin a Ha) as [H | H];
          [discriminate | right; right; exact H].
Qed.

Context {St : Type}.

Lemma throttle_invokes_dropped (func : A -> St -> St) (s : St) (rest : list A) :
  throttle_run func {| inThrottle := true; inner := s |} (Invoke <$> rest)
  = {| inThrottle := true; inner := s |}.
Proof.
  induction rest as [|a rest IH]; [reflexivity |]. exact IH.
Qed.

(** X3.  A throttled function runs the first call of a burst at once and
    drops every further call made before the timer has cooled it down:
    the later calls are not deferred, so the arguments of the last call of
    a burst never reach the wrapped function. *)
Theorem throttle_burst_runs_first (func : A -> St -> St) (s : St) (first : A)
    (rest : list A) :
  throttle_run func {| inThrottle := false; inner := s |}
    (Invoke first :: (Invoke <$> rest))
  = {| inThrottle := true; inner := func first s |}.
Proof.
  change (throttle_run func {| inThrottle := false; inner := s |}
            (Invoke first :: (Invoke <$> rest)))
    with (throttle_run func {| inThrottle := true; inner := func first s |}
            (Invoke <$> rest)).
  apply throttle_invokes_dropped.
Qed.

(** X4.  Over any sequence of calls and timer expiries, a throttled
    function has run at most once more than its timer has expired. *)
Theorem throttle_bounded_by_timer (t : throttled (list A))
    (evs : list (throttle_event A)) :
  (length (inner (throttle_run record_call t evs))
   + (if inThrottle (throttle_run record_call t evs) then 0 else 1)
   <= length (inner t) + (if inThrottle t then 0 else 1)
      + length (filter (fun ev => is_cooled ev) evs))%nat.
Proof.
  revert t. induction evs as [|ev evs IH]; intros t; [simpl; lia |].
  change (throttle_run record_call t (ev :: evs))
    with (throttle_run record_call (throttle_step record_call t ev) evs).
  specialize (IH (throttle_step record_call t ev)).
  destruct ev as [args|].
  - assert (Hf : filter (fun ev => is_cooled ev) (Invoke args :: evs)
                 = filter (fun ev => is_cooled ev) evs)
      by (apply filter_cons_False; simpl; tauto).
    rewrite Hf. cbn [throttle_step] in *.
    destruct (inThrottle t) eqn:Ht; cbn [negb] in *.
    + rewrite ?Ht in IH. lia.
    + cbn [inner inThrottle] in IH. rewrite ?Ht in IH.
      assert (Hlen : length (record_call args (inner t)) = S (length (inner t))).
      { unfold record_call. rewrite length_app. simpl. lia. }
      rewrite Hlen in IH. lia.
  - assert (Hf : filter (fun ev => is_cooled ev) (@Cooled A :: evs)
                 = Cooled :: filter (fun ev => is_cooled ev) evs)
      by (apply filter_cons_True; exact I).
    rewrite Hf. cbn [throttle_step inner inThrottle length] in *.
    destruct (inThrottle t); lia.
Qed.

End TimingFacts.

(** ** The mobile menu *)
Section MenuFacts.
Import JS MobileMenu.

Lemma closeMenu_coherent (m : menu) : coherent (closeMenu m).
Proof. unfold coherent. simpl. auto. Qed.

Lemma openMenu_coherent (has_link : bool) (m : menu) :
  coherent (openMenu has_link m).
Proof. unfold coherent. simpl. auto. Qed.

Lemma handle_coherent (has_link : bool) (m : menu) (ev : event) :
  coherent m -> coherent (handle has_link m ev).
Proof.
  intros Hm.
  destruct ev as [| | |b|key|w|]; cbn [handle];
    try apply closeMenu_coherent.
  - unfold toggleMenu.
    destruct (active m); [apply closeMenu_coherent | apply openMenu_coherent].
  - destruct b; [apply closeMenu_coherent | exact Hm].
  - destruct (String.eqb key "Escape" && active m);
      [apply closeMenu_coherent | exact Hm].
  - destruct (gt w (Fin 768) && active m);
      [apply closeMenu_coherent | exact Hm].
  - destruct (focus_timers m); exact Hm.
Qed.

(** X5.  The menu's visible state is kept in step: if the active class,
    aria-hidden, aria-expanded and the body's scroll lock agree, they still
    agree after any sequence of clicks, key presses, resizes and focus
    timers (the menu is open, announced as open and the page locked, or
    closed, announced as closed and the page free); opening or closing
    makes them agree whatever they were. *)
Theorem menu_stays_coherent (has_link : bool) (m : menu) (evs : list event) :
  coherent m ->
  coherent (run has_link m evs)
  /\ coherent (closeMenu (run has_link m evs))
  /\ coherent (openMenu has_link (run has_link m evs)).
Proof.
  intros Hm.
  split; [| split; [apply closeMenu_coherent | apply openMenu_coherent]].
  revert m Hm. induction evs as [|ev evs IH]; intros m Hm; [exact Hm |].
  apply (IH (handle has_link m ev)). apply handle_coherent. exact Hm.
Qed.

Lemma menu_stays_coherent_witness :
  coherent (run true closed session)
  /\ coherent (closeMenu (run true closed session))
  /\ coherent (openMenu true (run true closed session)).
Proof.
  apply (menu_stays_coherent true closed session).
  unfold coherent. simpl. auto.
Defined.

Lemma handle_keeps_closed (has_link : bool) (m : menu) (ev : event) :
  active m = false -> is_button_click ev = false ->
  active (handle has_link m ev) = false.
Proof.
  intros Hm Hev.
  destruct ev as [| | |b|key|w|]; cbn [handle]; try reflexivity;
    try discriminate.
  - destruct b; [reflexivity | exact Hm].
  - rewrite Hm, andb_false_r. exact Hm.
  - rewrite Hm, andb_false_r. exact Hm.
  - destruct (focus_timers m); exact Hm.
Qed.

(** X6.  Only the menu button opens the menu: from a closed menu, no
    sequence of Escape or other keys, clicks on links, on the backdrop or
    on the close button, resizes and focus timers makes it active. *)
Theorem only_button_opens (has_link : bool) (m : menu) (evs : list event) :
  active m = false ->
  forallb (fun ev => negb (is_button_click ev)) evs = true ->
  active (run has_link m evs) = false.
Proof.
  revert m. induction evs as [|ev evs IH]; intros m Hm Hevs; [exact Hm |].
  simpl in Hevs. apply andb_true_iff in Hevs as [Hev Hevs].
  apply (IH (handle has_link m ev)); [| exact Hevs].
  apply handle_keeps_closed; [exact Hm |].
  apply negb_true_iff. exact Hev.
Qed.

Lemma only_button_opens_witness : active (run true closed no_button) = false.
Proof.
  apply (only_button_opens true closed no_button); reflexivity.
Defined.

End MenuFacts.

(** ** The portfolio filter and several sliders on one page *)
Section GalleryFacts.
Import JS PortfolioGallery Gallery.

Lemma filter_item_category (f : option string) (it : item) :
  category (filter_item f it) = category it.
Proof. unfold filter_item. destruct (matches_filter f it); reflexivity. Qed.

Lemma filter_item_hidden (f : option string) (it : item) :
  hidden (filter_item f it) = negb (matches_filter f it).
Proof. unfold filter_item. destruct (matches_filter f it); reflexivity. Qed.

(** X7.  What the portfolio shows depends on the last filter only: an item
    is hidden exactly when the filter is not 'all' and differs from the
    item's category, whatever was hidden before, so filtering by g after f
    hides the same items as filtering by g alone; 'all' hides nothing; and
    no filter changes an item's category. *)
Theorem filter_last_wins (f g : option string) (items : list item) :
  hidden <$> filterPortfolio g (filterPortfolio f items)
  = hidden <$> filterPortfolio g items
  /\ hidden <$> filterPortfolio f items
     = (fun it => negb (matches_filter f it)) <$> items
  /\ hidden <$> filterPortfolio (Some "all") items = (fun _ => false) <$> items
  /\ category <$> filterPortfolio f items = category <$> items.
Proof.
  unfold filterPortfolio. rewrite <- !list_fmap_compose.
  split; [| split; [| split]]; apply list_fmap_ext; intros i it _;
    unfold compose.
  - rewrite !filter_item_hidden. unfold matches_filter.
    rewrite filter_item_category. reflexivity.
  - apply filter_item_hidden.
  - rewrite filter_item_hidden. reflexivity.
  - apply filter_item_category.
Qed.

(** X8.  After a filter button is made the active one, it is the only
    active button, however many were active before (none is, when the
    index names no button); the buttons keep their filters. *)
Theorem one_active_filter (k : nat) (buttons : list filter_button) :
  active <$> updateActiveFilter k buttons
  = imap (fun j _ => bool_decide (j = k)) buttons
  /\ data_filter <$> updateActiveFilter k buttons = data_filter <$> buttons.
Proof.
  unfold updateActiveFilter. split; apply list_eq; intros j.
  - rewrite list_lookup_fmap, list_lookup_imap.
    destruct (decide (k = j)) as [<- | Hne].
    + rewrite list_lookup_alter_eq, list_lookup_fmap.
      destruct (buttons !! k); simpl; [| reflexivity].
      rewrite bool_decide_eq_true_2; reflexivity.
    + rewrite list_lookup_alter_ne, list_lookup_fmap by exact Hne.
      destruct (buttons !! j); simpl; [| reflexivity].
      rewrite bool_decide_eq_false_2; [reflexivity | congruence].
  - rewrite !list_lookup_fmap.
    destruct (decide (k = j)) as [<- | Hne].
    + rewrite list_lookup_alter_eq, list_lookup_fmap.
      destruct (buttons !! k); reflexivity.
    + rewrite list_lookup_alter_ne, list_lookup_fmap by exact Hne.
      destruct (buttons !! j); reflexivity.
Qed.

Lemma idle_ignores_document (r : rect) (s : slider) (x : num) :
  isDragging s = false ->
  on_container (fun r => MouseMove (at_container x r)) (r, s) = (r, s)
  /\ on_container (fun r => TouchMove (at_container x r)) (r, s) = (r, s)
  /\ on_container (fun _ => MouseUp) (r, s) = (r, s)
  /\ on_container (fun _ => TouchEnd) (r, s) = (r, s).
Proof.
  intros H. unfold on_container. cbn [fst snd handle]. rewrite H. simpl.
  repeat split. destruct s. simpl in H. subst. reflexivity.
Qed.

(** X9.  Sliders on one page do not disturb each other: a container that
    is not being dragged is left exactly as it is by every event aimed at
    another container and by every move or release on the document. *)
Theorem idle_container_untouched (ev : page_event)
    (cs : list (rect * slider)) (j : nat) (r : rect) (s : slider) :
  cs !! j = Some (r, s) -> isDragging s = false -> aimed_at ev <> Some j ->
  dispatch ev cs !! j = Some (r, s).
Proof.
  intros Hj Hs Hev.
  destruct (idle_ignores_document r s NaN Hs) as (_ & _ & Hup & Hend).
  destruct ev as [i x|i x|i key|i|x| |x|]; simpl in *;
    try (rewrite list_lookup_alter_ne by congruence; exact Hj);
    rewrite list_lookup_fmap, Hj; simpl; f_equal;
    try assumption;
    apply (idle_ignores_document r s x Hs).
Qed.

Lemma idle_container_untouched_witness :
  dispatch (ContainerMouseDown 0 (Fin 50)) two_containers !! 1%nat
  = two_containers !! 1%nat
  /\ isDragging <$> (snd <$> dispatch (ContainerMouseDown 0 (Fin 50))
                              two_containers !! 0%nat)
     = Some true.
Proof.
  split; [| reflexivity].
  apply (idle_container_untouched (ContainerMouseDown 0 (Fin 50))
           two_containers 1
           {| bounds_left := Fin 300; bounds_width := Fin 200 |}
           (initContainer fresh)).
  - reflexivity.
  - reflexivity.
  - simpl. discriminate.
Defined.

Lemma release_idle (cs : list (rect * slider)) :
  Forall (fun c => isDragging c.2 = false) (dispatch DocumentMouseUp cs)
  /\ Forall (fun c => isDragging c.2 = false) (dispatch DocumentTouchEnd cs).
Proof.
  simpl. split; apply Forall_fmap, Forall_forall; intros [r s] _; simpl.
  - destruct (isDragging s) eqn:E; [reflexivity | exact E].
  - reflexivity.
Qed.

Lemma moves_on_idle (cs : list (rect * slider)) (xs : list num) :
  Forall (fun c => isDragging c.2 = false) cs ->
  page_run (DocumentMouseMove <$> xs) cs = cs
  /\ page_run (DocumentTouchMove <$> xs) cs = cs.
Proof.
  intros Hidle.
  assert (Hstep : forall x, dispatch (DocumentMouseMove x) cs = cs
                            /\ dispatch (DocumentTouchMove x) cs = cs).
  { intros x. simpl. split.
    - rewrite <- (list_fmap_id cs) at 2. apply list_fmap_ext.
      intros i [r s] Hi. simpl.
      apply (idle_ignores_document r s x).
      rewrite Forall_forall in Hidle.
      apply (Hidle (r, s)). apply list_elem_of_lookup. eauto.
    - rewrite <- (list_fmap_id cs) at 2. apply list_fmap_ext.
      intros i [r s] Hi. simpl.
      apply (idle_ignores_document r s x).
      rewrite Forall_forall in Hidle.
      apply (Hidle (r, s)). apply list_elem_of_lookup. eauto. }
  induction xs as [|x xs [IH1 IH2]]; [split; reflexivity |].
  change (page_run (DocumentMouseMove <$> x :: xs) cs)
    with (page_run (DocumentMouseMove <$> xs) (dispatch (DocumentMouseMove x) cs)).
  change (page_run (DocumentTouchMove <$> x :: xs) cs)
    with (page_run (DocumentTouchMove <$> xs) (dispatch (DocumentTouchMove x) cs)).
  destruct (Hstep x) as [-> ->]. split; assumption.
Qed.

(** X10.  One release ends every drag: after a mouse-up or a touch-end on
    the document no container is being dragged, and any number of moves
    that follow, mouse or touch, leave every slider exactly where it is
    until the next press.  Likewise moves that come before any press, on
    containers as the setup leaves them, change nothing. *)
Theorem release_ends_all_drags (cs : list (rect * slider)) (xs : list num) :
  Forall (fun c => isDragging c.2 = false) (dispatch DocumentMouseUp cs)
  /\ Forall (fun c => isDragging c.2 = false) (dispatch DocumentTouchEnd cs)
  /\ page_run (DocumentMouseUp :: (DocumentMouseMove <$> xs)) cs
     = dispatch DocumentMouseUp cs
  /\ page_run (DocumentTouchEnd :: (DocumentTouchMove <$> xs)) cs
     = dispatch DocumentTouchEnd cs
  /\ page_run (DocumentMouseMove <$> xs)
       ((fun c => (c.1, initContainer c.2)) <$> cs)
     = (fun c => (c.1, initContainer c.2)) <$> cs.
Proof.
  destruct (release_idle cs) as [Hup Hend].
  split; [exact Hup |]. split; [exact Hend |].
  split; [| split].
  - change (page_run (DocumentMouseUp :: (DocumentMouseMove <$> xs)) cs)
      with (page_run (DocumentMouseMove <$> xs) (dispatch DocumentMouseUp cs)).
    apply moves_on_idle. exact Hup.
  - change (page_run (DocumentTouchEnd :: (DocumentTouchMove <$> xs)) cs)
      with (page_run (DocumentTouchMove <$> xs) (dispatch DocumentTouchEnd cs)).
    apply moves_on_idle. exact Hend.
  - apply moves_on_idle. apply Forall_fmap, Forall_forall.
    intros c _. reflexivity.
Qed.

End GalleryFacts.

(** ** The slider: pointer mapping, keyboard and range *)
Section SliderFacts.
Import JS PortfolioGallery Layout.

Lemma updateSlider_in_range (p : num) (s : slider) :
  p <> NaN -> in_range (updateSlider p s).
Proof.
  intros Hp. destruct (clamp_number p Hp) as (r & Hr & Hlo & Hhi).
  unfold in_range, updateSlider. rewrite Hr. cbn [clipPath left set_visual].
  split; [reflexivity | split; assumption].
Qed.

Lemma laid_out_percentage (e : pointer) :
  laid_out e = true -> exists q, getPercentageFromEvent e = Fin q.
Proof.
  unfold laid_out, getPercentageFromEvent. destruct e as [x l w]. simpl.
  destruct x as [| |x|], l as [| |l|], w as [| |w|]; simpl; try discriminate.
  intros Hw. apply Qltb_lt in Hw.
  assert (Hz : Qeq_bool w 0 = false).
  { apply not_true_iff_false. rewrite Qeq_bool_iff. lra. }
  rewrite Hz. eauto.
Qed.

Lemma keydown_in_range (key : string) (s : slider) :
  in_range s -> in_range (keydown key s).
Proof.
  intros Hs. unfold keydown.
  assert (Hc : exists c, or_ (parseFloat_left s) (Fin 50) = Fin c).
  { unfold parseFloat_left, or_, truthy. destruct Hs as [_ Hr].
    destruct (left s) as [[| |c|]|]; try contradiction; [| eauto].
    destruct (negb (Qeq_bool c 0)); eauto. }
  destruct Hc as [c ->].
  destruct (String.eqb key "ArrowLeft");
    [apply updateSlider_in_range; discriminate |].
  destruct (String.eqb key "ArrowRight");
    [apply updateSlider_in_range; discriminate | exact Hs].
Qed.

Lemma handle_in_range (ev : event) (s : slider) :
  in_range s -> laid_out_event ev = true -> in_range (handle ev s).
Proof.
  intros Hs Hev.
  destruct ev as [e|e| |e|e| | |key]; cbn [handle laid_out_event] in *.
  - destruct (laid_out_percentage e Hev) as [q ->].
    apply updateSlider_in_range. discriminate.
  - destruct (negb (isDragging s)); [exact Hs |].
    destruct (laid_out_percentage e Hev) as [q ->].
    apply updateSlider_in_range. discriminate.
  - destruct (isDragging s); exact Hs.
  - destruct (laid_out_percentage e Hev) as [q ->].
    apply updateSlider_in_range. discriminate.
  - destruct (negb (isDragging s)); [exact Hs |].
    destruct (laid_out_percentage e Hev) as [q ->].
    apply updateSlider_in_range. discriminate.
  - exact Hs.
  - exact Hs.
  - apply keydown_in_range. exact Hs.
Qed.

(** X11.  The slider never leaves its range: starting with nothing written
    or with the clip boundary and the handle on one percentage between 0
    and 100, they are still on one percentage between 0 and 100 after any
    sequence of presses, moves, releases, touches and key presses, as long
    as every pointer position is finite and the container has positive
    width. *)
Theorem slider_stays_in_range (evs : list event) (s : slider) :
  in_range s -> forallb laid_out_event evs = true -> in_range (run evs s).
Proof.
  revert s. induction evs as [|ev evs IH]; intros s Hs Hevs; [exact Hs |].
  simpl in Hevs. apply andb_true_iff in Hevs as [Hev Hevs].
  change (run (ev :: evs) s) with (run evs (handle ev s)).
  apply IH; [apply handle_in_range; assumption | exact Hevs].
Qed.

Lemma slider_stays_in_range_witness :
  in_range (run drag_and_keys (initContainer fresh)).
Proof.
  apply (slider_stays_in_range drag_and_keys (initContainer fresh)).
  - unfold in_range. simpl. auto.
  - vm_compute. reflexivity.
Defined.

Lemma percentage_of_press (x l w : Q) :
  0 < w ->
  getPercentageFromEvent
    {| clientX := Fin x; rect_left := Fin l; rect_width := Fin w |}
  = Fin ((x + - l) / w * 100).
Proof.
  intros Hw.
  assert (Hz : Qeq_bool w 0 = false).
  { apply not_true_iff_false. rewrite Qeq_bool_iff. lra. }
  unfold getPercentageFromEvent, mul, div, sub, add, neg.
  cbn [clientX rect_left rect_width]. rewrite Hz. reflexivity.
Qed.

Lemma clamp_monotone (q q' : Q) :
  q <= q' ->
  (if Qle_bool q 0 then 0 else if Qle_bool 100 q then 100 else q)
  <= (if Qle_bool q' 0 then 0 else if Qle_bool 100 q' then 100 else q').
Proof.
  intros Hq.
  destruct (Qle_bool q 0) eqn:A; destruct (Qle_bool q' 0) eqn:A';
    destruct (Qle_bool 100 q) eqn:B; destruct (Qle_bool 100 q') eqn:B';
    try apply Qle_bool_iff in A; try apply Qle_bool_iff in A';
    try apply Qle_bool_iff in B; try apply Qle_bool_iff in B';
    try (apply not_true_iff_false in A; rewrite Qle_bool_iff in A);
    try (apply not_true_iff_false in A'; rewrite Qle_bool_iff in A');
    try (apply not_true_iff_false in B; rewrite Qle_bool_iff in B);
    try (apply not_true_iff_false in B'; rewrite Qle_bool_iff in B');
    lra.
Qed.

(** X12.  A press starts a drag and puts the clip boundary and the handle
    on one percentage between 0 and 100, the same for a mouse press and a
    touch: 0 when the pointer is at or left of the container's left edge,
    100 when it is at or right of its right edge; and of two presses the
    one further right never lands further left. *)
Theorem press_maps_position (x x' l w : Q) (s : slider) :
  0 < w -> x <= x' ->
  exists r r' : Q,
    left (handle (MouseDown {| clientX := Fin x; rect_left := Fin l;
                               rect_width := Fin w |}) s) = Some (Fin r)
    /\ clipPath (handle (MouseDown {| clientX := Fin x; rect_left := Fin l;
                                      rect_width := Fin w |}) s) = Some (Fin r)
    /\ left (handle (TouchStart {| clientX := Fin x; rect_left := Fin l;
                                   rect_width := Fin w |}) s) = Some (Fin r)
    /\ isDragging (handle (MouseDown {| clientX := Fin x; rect_left := Fin l;
                                        rect_width := Fin w |}) s) = true
    /\ left (handle (MouseDown {| clientX := Fin x'; rect_left := Fin l;
                                  rect_width := Fin w |}) s) = Some (Fin r')
    /\ 0 <= r /\ r <= 100
    /\ (x <= l -> r = 0)
    /\ (l + w <= x -> r = 100)
    /\ r <= r'.
Proof.
  intros Hw Hx.
  cbn [handle]. unfold updateSlider.
  rewrite !(percentage_of_press _ l w Hw), !clamp_finite.
  cbn [left clipPath isDragging set_visual set_cursor set_dragging].
  set (q := (x + - l) / w * 100). set (q' := (x' + - l) / w * 100).
  assert (Hq : q * w == (x - l) * 100) by (unfold q; field; lra).
  assert (Hq' : q' * w == (x' - l) * 100) by (unfold q'; field; lra).
  eexists _, _. do 5 (split; [reflexivity |]).
  split; [apply clamp_range |]. split; [apply clamp_range |].
  split; [| split].
  - intros Hl. assert (H : Qle_bool q 0 = true) by (apply Qle_bool_iff; nra).
    rewrite H. reflexivity.
  - intros Hl.
    assert (H0 : Qle_bool q 0 = false).
    { apply not_true_iff_false. rewrite Qle_bool_iff. nra. }
    assert (H1 : Qle_bool 100 q = true) by (apply Qle_bool_iff; nra).
    rewrite H0, H1. reflexivity.
  - apply clamp_monotone. nra.
Qed.

Lemma press_maps_position_witness :
  exists r r' : Q,
    left (handle (MouseDown {| clientX := Fin 150; rect_left := Fin 100;
                               rect_width := Fin 200 |}) fresh) = Some (Fin r)
    /\ clipPath (handle (MouseDown {| clientX := Fin 150; rect_left := Fin 100;
                                      rect_width := Fin 200 |}) fresh)
       = Some (Fin r)
    /\ left (handle (TouchStart {| clientX := Fin 150; rect_left := Fin 100;
                                   rect_width := Fin 200 |}) fresh)
       = Some (Fin r)
    /\ isDragging (handle (MouseDown {| clientX := Fin 150; rect_left := Fin 100;
                                        rect_width := Fin 200 |}) fresh) = true
    /\ left (handle (MouseDown {| clientX := Fin 400; rect_left := Fin 100;
                                  rect_width := Fin 200 |}) fresh)
       = Some (Fin r')
    /\ 0 <= r /\ r <= 100
    /\ (150 <= 100 -> r = 0)
    /\ (100 + 200 <= 150 -> r = 100)
    /\ r <= r'.
Proof.
  apply (press_maps_position 150 400 100 200 fresh).
  - reflexivity.
  - discriminate.
Defined.

Lemma Qcompare_shift (x l : Q) : (0 ?= x + - l) = CompOpp (x ?= l).
Proof.
  destruct (Qcompare_spec x l) as [E|E|E]; cbn [CompOpp].
  - apply (proj1 (Qeq_alt _ _)). lra.
  - apply (proj1 (Qgt_alt _ _)). lra.
  - apply (proj1 (Qlt_alt _ _)). lra.
Qed.

(** X13.  On a container of width zero a press cannot be mapped to a
    percentage: right of the container's left edge the slider jumps to 100
    and left of it to 0; exactly on it the division 0/0 gives NaN, the two
    style writes made with it are dropped, and the clip boundary and the
    handle stay as they were.  The drag starts in all three cases. *)
Theorem press_on_collapsed_container (x l : Q) (s : slider) :
  left (handle (MouseDown {| clientX := Fin x; rect_left := Fin l;
                             rect_width := Fin 0 |}) s)
  = match x ?= l with
    | Eq => left s
    | Lt => Some (Fin 0)
    | Gt => Some (Fin 100)
    end
  /\ clipPath (handle (MouseDown {| clientX := Fin x; rect_left := Fin l;
                                    rect_width := Fin 0 |}) s)
     = match x ?= l with
       | Eq => clipPath s
       | Lt => Some (Fin 0)
       | Gt => Some (Fin 100)
       end
  /\ isDragging (handle (MouseDown {| clientX := Fin x; rect_left := Fin l;
                                      rect_width := Fin 0 |}) s) = true.
Proof.
  cbn [handle]. rewrite updateSlider_isDragging.
  unfold updateSlider, getPercentageFromEvent, sub, add, neg, div.
  cbn [clientX rect_left rect_width].
  change (Qeq_bool 0 0) with true. cbn iota.
  rewrite Qcompare_shift. destruct (x ?= l); repeat split; reflexivity.
Qed.

(** X14.  On whole percentages the arrow keys step by exactly 5.  With
    the handle on a whole percentage n from 1 to 100, ArrowRight moves the
    clip boundary and the handle to n + 5, or to 100 when that is less,
    and ArrowLeft to n - 5, or to 0 when that is more. *)
Theorem arrows_step_whole_percentages (s : slider) (n : Z) :
  left s = Some (Fin (inject_Z n)) -> (1 <= n <= 100)%Z ->
  (exists r, left (handle (KeyDown "ArrowRight") s) = Some (Fin r)
             /\ clipPath (handle (KeyDown "ArrowRight") s) = Some (Fin r)
             /\ r == inject_Z (Z.min 100 (n + 5)))
  /\ (exists r, left (handle (KeyDown "ArrowLeft") s) = Some (Fin r)
                /\ clipPath (handle (KeyDown "ArrowLeft") s) = Some (Fin r)
                /\ r == inject_Z (Z.max 0 (n - 5))).
Proof.
  intros Hl Hn.
  assert (Hnz : ~ inject_Z n == 0).
  { intros E. change 0 with (inject_Z 0) in E.
    apply (proj1 (inject_Z_injective n 0)) in E. lia. }
  destruct (keydown_steps_from_nonzero s (inject_Z n) Hl Hnz) as [-> ->].
  unfold updateSlider, sub, add, neg. rewrite !clamp_finite.
  cbn [left clipPath set_visual].
  assert (Hlo : 1 <= inject_Z n).
  { change 1 with (inject_Z 1). rewrite <- Zle_Qle. lia. }
  assert (Hhi : inject_Z n <= 100).
  { change 100 with (inject_Z 100). rewrite <- Zle_Qle. lia. }
  split; eexists; (split; [reflexivity |]); (split; [reflexivity |]).
  - assert (H0 : Qle_bool (inject_Z n + 5) 0 = false).
    { apply not_true_iff_false. rewrite Qle_bool_iff. lra. }
    rewrite H0.
    destruct (Qle_bool 100 (inject_Z n + 5)) eqn:H1.
    + apply Qle_bool_iff in H1.
      assert (95 <= n)%Z.
      { rewrite Zle_Qle. change (inject_Z 95) with 95. lra. }
      rewrite Z.min_l by lia. reflexivity.
    + apply not_true_iff_false in H1. rewrite Qle_bool_iff in H1.
      assert (n < 95)%Z.
      { apply Znot_ge_lt. intros G. apply H1.
        assert (95 <= inject_Z n).
        { change 95 with (inject_Z 95). rewrite <- Zle_Qle. lia. }
        lra. }
      rewrite Z.min_r by lia. rewrite inject_Z_plus. reflexivity.
  - assert (H1 : forall q, q <= 95 -> Qle_bool 100 q = false).
    { intros q Hq. apply not_true_iff_false. rewrite Qle_bool_iff. lra. }
    destruct (Qle_bool (inject_Z n + Qopp 5) 0) eqn:H0.
    + apply Qle_bool_iff in H0.
      assert (n <= 5)%Z.
      { rewrite Zle_Qle. change (inject_Z 5) with 5. lra. }
      rewrite Z.max_l by lia. reflexivity.
    + rewrite H1 by lra.
      apply not_true_iff_false in H0. rewrite Qle_bool_iff in H0.
      assert (5 < n)%Z.
      { apply Znot_ge_lt. intros G. apply H0.
        assert (inject_Z n <= 5).
        { change 5 with (inject_Z 5). rewrite <- Zle_Qle. lia. }
        lra. }
      rewrite Z.max_r by lia.
      change (n - 5)%Z with (n + - 5)%Z. rewrite inject_Z_plus. reflexivity.
Qed.

Lemma arrows_step_whole_percentages_witness :
  (exists r, left (handle (KeyDown "ArrowRight") (updateSlider (Fin 20) fresh))
             = Some (Fin r)
             /\ clipPath (handle (KeyDown "ArrowRight")
                            (updateSlider (Fin 20) fresh)) = Some (Fin r)
             /\ r == inject_Z (Z.min 100 (20 + 5)))
  /\ (exists r, left (handle (KeyDown "ArrowLeft") (updateSlider (Fin 20) fresh))
                = Some (Fin r)
                /\ clipPath (handle (KeyDown "ArrowLeft")
                               (updateSlider (Fin 20) fresh)) = Some (Fin r)
                /\ r == inject_Z (Z.max 0 (20 - 5))).
Proof.
  apply (arrows_step_whole_percentages (updateSlider (Fin 20) fresh) 20).
  - reflexivity.
  - lia.
Defined.

(** X15.  Whatever the handle holds, an arrow key leaves the clip boundary
    and the handle on one percentage between 0 and 100: the keyboard never
    writes NaN or a value out of range, also when nothing was written yet
    or when the handle's offset does not parse to a finite number. *)
Theorem arrows_land_in_range (s : slider) :
  (exists r, left (handle (KeyDown "ArrowLeft") s) = Some (Fin r)
             /\ clipPath (handle (KeyDown "ArrowLeft") s) = Some (Fin r)
             /\ 0 <= r /\ r <= 100)
  /\ (exists r, left (handle (KeyDown "ArrowRight") s) = Some (Fin r)
                /\ clipPath (handle (KeyDown "ArrowRight") s) = Some (Fin r)
                /\ 0 <= r /\ r <= 100).
Proof.
  assert (Hc : or_ (parseFloat_left s) (Fin 50) <> NaN).
  { unfold parseFloat_left, or_, truthy.
    destruct (left s) as [[| |c|]|]; try discriminate.
    destruct (negb (Qeq_bool c 0)); discriminate. }
  assert (Hl : sub (or_ (parseFloat_left s) (Fin 50)) (Fin 5) <> NaN).
  { destruct (or_ (parseFloat_left s) (Fin 50)); simpl; congruence. }
  assert (Hr : add (or_ (parseFloat_left s) (Fin 50)) (Fin 5) <> NaN).
  { destruct (or_ (parseFloat_left s) (Fin 50)); simpl; congruence. }
  change (handle (KeyDown "ArrowLeft") s)
    with (updateSlider (sub (or_ (parseFloat_left s) (Fin 50)) (Fin 5)) s).
  change (handle (KeyDown "ArrowRight") s)
    with (updateSlider (add (or_ (parseFloat_left s) (Fin 50)) (Fin 5)) s).
  split.
  - destruct (clamp_number _ Hl) as (r & Hr' & Hlo & Hhi).
    unfold updateSlider. rewrite Hr'. cbn [left clipPath set_visual].
    exists r. auto.
  - destruct (clamp_number _ Hr) as (r & Hr' & Hlo & Hhi).
    unfold updateSlider. rewrite Hr'. cbn [left clipPath set_visual].
    exists r. auto.
Qed.

End SliderFacts.

(** ** The contact form: validation passes and a whole submission *)
Section FormFacts.
Import JS JSString ContactForm.

(** X18.  A field that is not required and holds nothing but blanks is
    valid whatever its type and name: the email, phone and name rules only
    apply to a non-empty trimmed value.  Validating it clears its mark. *)
Theorem empty_optional_is_valid (f : field) (doc : gmap string errorElement) :
  required f = false -> trim (value f) = [] ->
  check f = (true, "")
  /\ (validateField f doc).1.1 = true
  /\ class_error (validateField f doc).1.2 = false
  /\ aria_invalid (validateField f doc).1.2 = Some "false".
Proof.
  intros Hr Hv.
  assert (Hc : check f = (true, "")).
  { unfold check. rewrite Hr, Hv. simpl. rewrite !andb_false_r. reflexivity. }
  destruct (validateField_result f doc) as [H1 H2].
  rewrite H1, H2. unfold validated. rewrite Hc. simpl. auto.
Qed.

Lemma empty_optional_is_valid_witness :
  check (input "email" "email" (lit "   ") false) = (true, "")
  /\ (validateField (input "email" "email" (lit "   ") false) ∅).1.1 = true
  /\ class_error (validateField (input "email" "email" (lit "   ") false) ∅).1.2
     = false
  /\ aria_invalid (validateField (input "email" "email" (lit "   ") false) ∅).1.2
     = Some "false".
Proof.
  apply (empty_optional_is_valid (input "email" "email" (lit "   ") false) ∅);
    reflexivity.
Defined.

Lemma check_validated (f : field) : check (validated f) = check f.
Proof.
  unfold validated. destruct (check f).1; reflexivity.
Qed.

Lemma validated_idempotent (f : field) : validated (validated f) = validated f.
Proof.
  unfold validated at 1. rewrite check_validated.
  unfold validated. destruct (check f).1; reflexivity.
Qed.

Lemma errorId_validated (f : field) : errorId (validated f) = errorId f.
Proof. unfold validated. destruct (check f).1; reflexivity. Qed.

Lemma validateField_document (f : field) (doc : gmap string errorElement) :
  (validateField f doc).2
  = match doc !! errorId f with
    | Some el =>
        <[errorId f :=
            if (check f).1
            then {| textContent := ""; aria_live := aria_live el |}
            else {| textContent := (check f).2; aria_live := Some "polite" |}]>
          doc
    | None => doc
    end.
Proof.
  unfold validateField, clearErrors, showError.
  change (errorId (set_mark false "false" f)) with (errorId f).
  destruct (check f) as [[|] m]; simpl;
    destruct (doc !! errorId f) as [el|] eqn:E; simpl; try reflexivity.
  - change (errorId (set_mark false "false" f)) with (errorId f).
    rewrite lookup_insert_eq. simpl.
    change (errorId (set_mark true "true" (set_mark false "false" f)))
      with (errorId f).
    apply insert_insert_eq.
  - change (errorId (set_mark false "false" f)) with (errorId f).
    rewrite E. reflexivity.
Qed.

(** X19.  Validating a field twice is the same as validating it once: the
    second pass returns the same verdict and leaves the field's mark, its
    aria-invalid attribute and the error element exactly as the first pass
    left them. *)
Theorem validateField_idempotent (f : field) (doc : gmap string errorElement) :
  validateField (validateField f doc).1.2 (validateField f doc).2
  = validateField f doc.
Proof.
  destruct (validateField_result f doc) as [Hv Hf].
  pose proof (validateField_document f doc) as Hd.
  set (r := validateField f doc) in *.
  destruct (validateField_result r.1.2 r.2) as [Hv2 Hf2].
  pose proof (validateField_document r.1.2 r.2) as Hd2.
  set (r2 := validateField r.1.2 r.2) in *.
  assert (H1 : r2.1.1 = r.1.1).
  { rewrite Hv2, Hv, Hf. rewrite check_validated. reflexivity. }
  assert (H2 : r2.1.2 = r.1.2).
  { rewrite Hf2, Hf. apply validated_idempotent. }
  assert (H3 : r2.2 = r.2).
  { rewrite Hd2, Hf, errorId_validated, check_validated, Hd.
    destruct (doc !! errorId f) as [el|] eqn:E; [| rewrite E; reflexivity].
    rewrite lookup_insert_eq, insert_insert_eq.
    destruct (check f).1; reflexivity. }
  destruct r2 as [[a1 a2] a3], r as [[b1 b2] b3]. simpl in *. congruence.
Qed.

(** X20.  [validateForm] checks every required field, not only up to the
    first failure: it returns true exactly when none of them fails, and
    afterwards each required field is marked exactly when it is invalid,
    while optional fields keep whatever mark they had and no value has
    changed. *)
Theorem validateForm_marks_all (st : form) :
  (validateForm st).1
  = forallb (fun f => negb (required f) || (check f).1) (fields st)
  /\ class_error <$> fields (validateForm st).2
     = (fun f => if required f then negb (check f).1 else class_error f)
         <$> fields st
  /\ value <$> fields (validateForm st).2 = value <$> fields st
  /\ required <$> fields (validateForm st).2 = required <$> fields st
  /\ focused (validateForm st).2 = focused st.
Proof.
  destruct (validateForm_spec st) as (Hv & Hfs & _ & _ & Hfo & _).
  rewrite Hv, Hfs, Hfo, <- !list_fmap_compose.
  split; [reflexivity |].
  split; [apply list_fmap_ext; intros i f _; apply revalidated_mark |].
  split; [apply list_fmap_ext; intros i f _; apply revalidated_value |].
  split; [| reflexivity].
  apply list_fmap_ext. intros i f _. unfold compose, revalidated, validated.
  destruct (required f) eqn:Hr; [| exact Hr].
  destruct (check f).1; exact Hr.
Qed.

(** X21.  A whole submission of a form whose required fields are valid and
    that has a submit button: the data handed to the submission are the
    values at the time of the submit event.  When the submission resolves,
    every field is back at its default value, the required fields are
    unmarked, optional fields keep the mark they had, and the success
    message is the first banner; when it is rejected, every field keeps
    its value and the error message is the first banner.  Either way the
    button is enabled again under its old label. *)
Theorem submission_round_trip (st : form) (b : button) :
  submitButton st = Some b ->
  (forall f, f ∈ fields st -> required f = true -> (check f).1 = true) ->
  exists (st1 : form) (k : suspended),
    handleSubmit st = Awaiting st1 k
    /\ formData k = FormData st
    /\ value <$> fields (submitForm_resume Resolved k st1)
       = defaultValue <$> fields st
    /\ class_error <$> fields (submitForm_resume Resolved k st1)
       = (fun f => if required f then false else class_error f) <$> fields st
    /\ banners (submitForm_resume Resolved k st1) = SuccessMessage :: banners st
    /\ value <$> fields (submitForm_resume Rejected k st1) = value <$> fields st
    /\ banners (submitForm_resume Rejected k st1) = ErrorMessage :: banners st
    /\ (forall o, submitButton (submitForm_resume o k st1)
                  = Some {| disabled := false; label := label b |}).
Proof.
  intros Hb Hall.
  destruct (validateForm_spec st) as (Hv & Hfs & Hbtn & Hbn & _).
  pose proof (forallb_required_ok_true _ Hall) as Htrue.
  unfold handleSubmit, submitForm_start.
  destruct (validateForm st) as [ok st0]. cbn [fst snd] in *. subst ok.
  rewrite Htrue. cbn [negb].
  rewrite Hb in Hbtn.
  destruct (submitButton st0) as [b0|] eqn:E;
    [injection Hbtn as -> | discriminate Hbtn].
  eexists _, _. split; [reflexivity |].
  split; [reflexivity |].
  unfold submitForm_resume, reset, showSuccess, showSubmissionError, show,
    console_error, with_button, with_dom.
  cbn [fields banners submitButton originalText].
  rewrite Hfs, Hbn, <- !list_fmap_compose.
  split.
  { apply list_fmap_ext. intros i f _. unfold compose, revalidated, validated.
    destruct (required f), (check f).1; reflexivity. }
  split.
  { apply list_fmap_ext. intros i f Hi. unfold compose.
    change (class_error (reset_field (revalidated f)))
      with (class_error (revalidated f)).
    rewrite revalidated_mark.
    destruct (required f) eqn:Hr; [| reflexivity].
    rewrite (Hall f); [reflexivity | | exact Hr].
    apply list_elem_of_lookup. eauto. }
  split; [reflexivity |].
  split; [apply list_fmap_ext; intros i f _; apply revalidated_value |].
  split; [reflexivity |].
  intros [|]; cbn [submitButton]; rewrite E; reflexivity.
Qed.

Lemma submission_round_trip_witness :
  exists (st1 : form) (k : suspended),
    handleSubmit form_bad_optional = Awaiting st1 k
    /\ formData k = FormData form_bad_optional
    /\ value <$> fields (submitForm_resume Resolved k st1)
       = defaultValue <$> fields form_bad_optional
    /\ class_error <$> fields (submitForm_resume Resolved k st1)
       = (fun f => if required f then false else class_error f)
           <$> fields form_bad_optional
    /\ banners (submitForm_resume Resolved k st1)
       = SuccessMessage :: banners form_bad_optional
    /\ value <$> fields (submitForm_resume Rejected k st1)
       = value <$> fields form_bad_optional
    /\ banners (submitForm_resume Rejected k st1)
       = ErrorMessage :: banners form_bad_optional
    /\ (forall o, submitButton (submitForm_resume o k st1)
                  = Some {| disabled := false; label := "Send" |}).
Proof.
  apply (submission_round_trip form_bad_optional
           {| disabled := false; label := "Send" |}).
  - reflexivity.
  - intros f Hin Hr. simpl in Hin.
    repeat (apply elem_of_cons in Hin as [-> | Hin];
            [first [vm_compute; reflexivity | discriminate Hr] |]).
    inversion Hin.
Defined.

End FormFacts.

(** ** The reveal observer: fallback and bookkeeping *)
Section RevealFacts.
Import ScrollAnimations.

(** Every target is either waiting or revealed, and the revealed ones are
    those the reveal branch has run for. *)
Lemma on_entry_partition (T : gset nat) (s : state) (e : entry) :
  target e ∈ T ->
  observed s ∪ animated s = T -> observed s ∩ animated s = ∅ ->
  (forall t, t ∈ animated s <-> t ∈ fired s) ->
  observed (on_entry s e) ∪ animated (on_entry s e) = T
  /\ observed (on_entry s e) ∩ animated (on_entry s e) = ∅
  /\ (forall t, t ∈ animated (on_entry s e) <-> t ∈ fired (on_entry s e)).
Proof.
  intros He Hu Hd Hf. unfold on_entry.
  destruct (isIntersecting e); simpl; [| auto].
  split; [| split].
  - apply set_eq. intros t. destruct (decide (t = target e)); set_solver.
  - set_solver.
  - intros t. rewrite elem_of_app, list_elem_of_singleton, <- Hf. set_solver.
Qed.

Lemma callback_partition (T : gset nat) (es : list entry) (s : state) :
  (forall e, e ∈ es -> target e ∈ T) ->
  observed s ∪ animated s = T -> observed s ∩ animated s = ∅ ->
  (forall t, t ∈ animated s <-> t ∈ fired s) ->
  observed (callback es s) ∪ animated (callback es s) = T
  /\ observed (callback es s) ∩ animated (callback es s) = ∅
  /\ (forall t, t ∈ animated (callback es s) <-> t ∈ fired (callback es s)).
Proof.
  revert s. induction es as [|e es IH]; intros s Hes Hu Hd Hf; [auto |].
  simpl.
  assert (He : target e ∈ T) by (apply Hes; left).
  destruct (on_entry_partition T s e He Hu Hd Hf) as (Hu' & Hd' & Hf').
  apply IH; auto. intros e' He'. apply Hes. right. exact He'.
Qed.

(** X23.  With IntersectionObserver, after any sequence of intersection
    reports every target is in exactly one of two states, still observed
    or revealed, never both and never neither; and the revealed targets
    are exactly those the reveal branch has run for. *)
Theorem targets_observed_or_revealed (targets : list nat)
    (batches : list (list entry)) :
  observed (run (init true targets) batches)
    ∪ animated (run (init true targets) batches) = list_to_set targets
  /\ observed (run (init true targets) batches)
       ∩ animated (run (init true targets) batches) = ∅
  /\ (forall t, t ∈ animated (run (init true targets) batches)
                <-> t ∈ fired (run (init true targets) batches)).
Proof.
  set (T := list_to_set targets : gset nat).
  assert (Hgen : forall s,
    observed s ∪ animated s = T -> observed s ∩ animated s = ∅ ->
    (forall t, t ∈ animated s <-> t ∈ fired s) ->
    observed (run s batches) ∪ animated (run s batches) = T
    /\ observed (run s batches) ∩ animated (run s batches) = ∅
    /\ (forall t, t ∈ animated (run s batches) <-> t ∈ fired (run s batches))).
  { induction batches as [|b bs IH]; intros s Hu Hd Hf; [auto |].
    change (run s (b :: bs)) with (run (notify s b) bs).
    assert (Hin : forall e, e ∈ deliver s b -> target e ∈ T).
    { intros e He. apply list_elem_of_filter in He as [Ho _].
      rewrite <- Hu. set_solver. }
    destruct (callback_partition T (deliver s b) s Hin Hu Hd Hf)
      as (Hu' & Hd' & Hf').
    apply IH; assumption. }
  apply Hgen; simpl.
  - set_solver.
  - set_solver.
  - intros t. set_solver.
Qed.

End RevealFacts.

(** ** Lazy images *)
Section LazyFacts.
Import LazyImages.

Lemma on_entry_loaded (s : state) (e : entry) (t : nat) (img : image) :
  images s !! t = Some img -> data_src img = None ->
  images (on_entry s e) !! t = Some img.
Proof.
  intros Ht Hd. unfold on_entry.
  destruct (isIntersecting e); simpl; [| exact Ht].
  destruct (decide (target e = t)) as [-> | Hne].
  - rewrite Ht, Hd. exact Ht.
  - destruct (images s !! target e) as [img'|]; [| exact Ht].
    destruct (data_src img') as [u|]; [| exact Ht].
    destruct (String.eqb u ""); [exact Ht |].
    rewrite lookup_insert_ne by exact Hne. exact Ht.
Qed.

Lemma callback_loaded (es : list entry) (s : state) (t : nat) (img : image) :
  images s !! t = Some img -> data_src img = None ->
  images (callback es s) !! t = Some img.
Proof.
  revert s. induction es as [|e es IH]; intros s Ht Hd; [exact Ht |].
  simpl. apply IH; [| exact Hd]. apply on_entry_loaded; assumption.
Qed.

Lemma run_loaded (batches : list (list entry)) (s : state) (t : nat)
    (img : image) :
  images s !! t = Some img -> data_src img = None ->
  images (run s batches) !! t = Some img.
Proof.
  revert s. induction batches as [|b bs IH]; intros s Ht Hd; [exact Ht |].
  change (run s (b :: bs)) with (run (notify s b) bs).
  apply IH; [| exact Hd]. apply callback_loaded; assumption.
Qed.

Lemma on_entry_observed (s : state) (e : entry) :
  observed (on_entry s e) ⊆ observed s.
Proof. unfold on_entry. destruct (isIntersecting e); simpl; set_solver. Qed.

Lemma callback_observed (es : list entry) (s : state) :
  observed (callback es s) ⊆ observed s.
Proof.
  revert s. induction es as [|e es IH]; intros s; simpl; [set_solver |].
  pose proof (on_entry_observed s e). pose proof (IH (on_entry s e)).
  set_solver.
Qed.

(** One entry on an image that still waits: it stays as it is (and then the
    entry was not an intersecting one for it), or it is loaded and
    unobserved. *)
Lemma on_entry_pending (s : state) (e : entry) (t : nat) (img : image)
    (url : string) :
  images s !! t = Some img -> data_src img = Some url -> url <> "" ->
  (images (on_entry s e) !! t = Some img
   /\ e <> {| target := t; isIntersecting := true |})
  \/ (images (on_entry s e) !! t = Some {| src := Some url; data_src := None |}
      /\ t ∉ observed (on_entry s e)).
Proof.
  intros Ht Hd Hu. unfold on_entry.
  destruct e as [te ie]. cbn [target isIntersecting].
  destruct ie; simpl; [| left; split; [exact Ht | discriminate]].
  destruct (decide (te = t)) as [-> | Hne].
  - right. rewrite Ht, Hd.
    destruct (String.eqb url "") eqn:E;
      [apply String.eqb_eq in E; contradiction |].
    split; [apply lookup_insert_eq | set_solver].
  - left. split; [| congruence].
    destruct (images s !! te) as [img'|]; [| exact Ht].
    destruct (data_src img') as [u|]; [| exact Ht].
    destruct (String.eqb u ""); [exact Ht |].
    rewrite lookup_insert_ne by exact Hne. exact Ht.
Qed.

Lemma callback_loads (es : list entry) (s : state) (t : nat) (img : image)
    (url : string) :
  images s !! t = Some img -> data_src img = Some url -> url <> "" ->
  {| target := t; isIntersecting := true |} ∈ es ->
  images (callback es s) !! t = Some {| src := Some url; data_src := None |}
  /\ (t ∉ observed (callback es s)).
Proof.
  revert s. induction es as [|e es IH]; intros s Ht Hd Hu Hin.
  - inversion Hin.
  - simpl. destruct (on_entry_pending s e t img url Ht Hd Hu) as [[H Hne] | [H Ho]].
    + apply elem_of_cons in Hin as [Heq | Hin]; [congruence |].
      apply (IH (on_entry s e) H Hd Hu Hin).
    + split; [apply callback_loaded; [exact H | reflexivity] |].
      pose proof (callback_observed es (on_entry s e)). set_solver.
Qed.

(** X24.  A lazy image is loaded once and for all: when an observed image
    that still carries a non-empty data-src is reported as intersecting,
    its src becomes that URL, data-src is removed and the image is
    unobserved; no later report, whatever it says, changes the image
    again. *)
Theorem lazy_image_loads_once (s : state) (t : nat) (img : image)
    (url : string) (changes : list entry) (later : list (list entry)) :
  images s !! t = Some img -> data_src img = Some url -> url <> "" ->
  t ∈ observed s ->
  {| target := t; isIntersecting := true |} ∈ changes ->
  images (notify s changes) !! t = Some {| src := Some url; data_src := None |}
  /\ (t ∉ observed (notify s changes))
  /\ images (run (notify s changes) later) !! t
     = Some {| src := Some url; data_src := None |}.
Proof.
  intros Ht Hd Hu Ho Hin.
  assert (Hdel : {| target := t; isIntersecting := true |}
                 ∈ filter (fun e => target e ∈ observed s) changes).
  { apply list_elem_of_filter. split; [exact Ho | exact Hin]. }
  destruct (callback_loads _ s t img url Ht Hd Hu Hdel) as [H1 H2].
  split; [exact H1 |]. split; [exact H2 |].
  apply run_loaded; [exact H1 | reflexivity].
Qed.

Lemma lazy_image_loads_once_witness :
  images (notify (lazyLoadImages true gallery_images)
            [{| target := 0; isIntersecting := true |}]) !! 0%nat
  = Some {| src := Some "before.jpg"; data_src := None |}
  /\ (0%nat ∉ observed (notify (lazyLoadImages true gallery_images)
                         [{| target := 0; isIntersecting := true |}]))
  /\ images (run (notify (lazyLoadImages true gallery_images)
                    [{| target := 0; isIntersecting := true |}])
               [[{| target := 0; isIntersecting := false |}];
                [{| target := 0; isIntersecting := true |}]]) !! 0%nat
     = Some {| src := Some "before.jpg"; data_src := None |}.
Proof.
  apply (lazy_image_loads_once (lazyLoadImages true gallery_images) 0
           {| src := None; data_src := Some "before.jpg" |} "before.jpg").
  - reflexivity.
  - reflexivity.
  - discriminate.
  - simpl. apply elem_of_dom. exists {| src := None; data_src := Some "before.jpg" |}.
    apply map_lookup_filter_Some. split; [reflexivity | simpl; eauto].
  - apply list_elem_of_singleton. reflexivity.
Defined.

End LazyFacts.

(** ** Scroll-depth milestones *)
Section MilestoneFacts.
Import JS Analytics Milestones.

Lemma ge_after_gt (a p : num) (m : Q) :
  ge a (Fin m) = true -> gt p a = true -> ge p (Fin m) = true.
Proof.
  unfold gt. destruct a as [| |x|], p as [| |y|]; simpl; try discriminate;
    try reflexivity.
  rewrite !negb_true_iff, Qltb_lt, !Qltb_ge. intros H1 H2. lra.
Qed.

Lemma milestone_event_inj (m m' : Z) :
  m ∈ milestones -> m' ∈ milestones ->
  milestone_event m = milestone_event m' -> m = m'.
Proof.
  unfold milestones. intros Hm Hm' Heq.
  repeat (apply elem_of_cons in Hm as [-> | Hm]);
    try (inversion Hm; fail);
    repeat (apply elem_of_cons in Hm' as [-> | Hm']);
    try (inversion Hm'; fail);
    try reflexivity; vm_compute in Heq; discriminate Heq.
Qed.

Lemma milestones_NoDup : NoDup milestones.
Proof.
  unfold milestones. repeat (apply NoDup_cons; split; [set_solver |]).
  apply NoDup_nil_2.
Qed.

Lemma reported_trackEvent (m : Z) (a c l : string) (s : state) :
  reported m (trackEvent a c l s)
  = (reported m s
     + if bool_decide ((a, c, l) = milestone_event m) then 1 else 0)%nat.
Proof.
  unfold reported, trackEvent. cbn [log].
  rewrite filter_app, length_app, filter_cons, filter_nil.
  case_decide as H.
  - rewrite bool_decide_eq_true_2 by exact H. reflexivity.
  - rewrite bool_decide_eq_false_2 by exact H. reflexivity.
Qed.

Lemma on_milestone_spec (p : num) (s : state) (a : Z) :
  a ∈ milestones ->
  maxScroll (on_milestone p s a) = maxScroll s
  /\ inThrottle (on_milestone p s a) = inThrottle s
  /\ (forall m, m ∈ tracked (on_milestone p s a)
                <-> m ∈ tracked s \/ (m = a /\ ge p (Fin (inject_Z a)) = true))
  /\ (forall m, m ∈ milestones ->
        reported m (on_milestone p s a)
        = (reported m s
           + if bool_decide (m = a /\ ge p (Fin (inject_Z a)) = true
                             /\ a ∉ tracked s)
             then 1 else 0)%nat).
Proof.
  intros Ha. unfold on_milestone.
  destruct (ge p (Fin (inject_Z a))) eqn:Hge; simpl.
  - case_bool_decide as Ht; simpl.
    + split; [reflexivity |]. split; [reflexivity |]. split.
      * intros m. split; [auto | intros [H | [-> _]]; assumption].
      * intros m _. rewrite bool_decide_eq_false_2; [lia | tauto].
    + split; [reflexivity |]. split; [reflexivity |]. split.
      * intros m. unfold mark. cbn [tracked]. set_solver.
      * intros m Hm. unfold mark, reported. cbn [log].
        change (length (filter (fun e => e = milestone_event m)
                          (log (trackEvent "scroll" "depth"
                                  (pretty a +:+ "%") s))))
          with (reported m (trackEvent "scroll" "depth" (pretty a +:+ "%") s)).
        rewrite reported_trackEvent. f_equal.
        change ("scroll", "depth", pretty a +:+ "%") with (milestone_event a).
        repeat case_bool_decide; try reflexivity; exfalso.
        -- match goal with H : ~ _ |- _ => apply H end.
           split; [| tauto]. symmetry. apply milestone_event_inj; auto.
        -- match goal with H : _ <> _ |- _ => apply H end.
           destruct H0 as [-> _]. reflexivity.
  - split; [reflexivity |]. split; [reflexivity |]. split.
    + intros m. split; [auto | intros [H | [_ H]]; [exact H | discriminate]].
    + intros m _. rewrite bool_decide_eq_false_2; [lia |].
      intros (_ & H & _). discriminate.
Qed.

Lemma milestone_loop_spec (p : num) (ms : list Z) (s : state) :
  NoDup ms -> (forall m, m ∈ ms -> m ∈ milestones) ->
  maxScroll (foldl (on_milestone p) s ms) = maxScroll s
  /\ inThrottle (foldl (on_milestone p) s ms) = inThrottle s
  /\ (forall m, m ∈ tracked (foldl (on_milestone p) s ms)
                <-> m ∈ tracked s
                    \/ (m ∈ ms /\ ge p (Fin (inject_Z m)) = true))
  /\ (forall m, m ∈ milestones ->
        reported m (foldl (on_milestone p) s ms)
        = (reported m s
           + if bool_decide (m ∈ ms /\ ge p (Fin (inject_Z m)) = true
                             /\ m ∉ tracked s)
             then 1 else 0)%nat).
Proof.
  revert s. induction ms as [|a ms IH]; intros s Hnd Hsub.
  - cbn [foldl]. split; [reflexivity |]. split; [reflexivity |]. split.
    + intros m. split; [auto | intros [H | [H _]]; [exact H | inversion H]].
    + intros m _. case_bool_decide as H; [| lia].
      destruct H as [H _]. inversion H.
  - apply NoDup_cons in Hnd as [Ha Hnd].
    assert (Ham : a ∈ milestones) by (apply Hsub; left).
    destruct (on_milestone_spec p s a Ham) as (M1 & T1 & K1 & R1).
    destruct (IH (on_milestone p s a) Hnd) as (M2 & T2 & K2 & R2).
    { intros m Hm. apply Hsub. right. exact Hm. }
    cbn [foldl]. rewrite M2, T2.
    split; [exact M1 |]. split; [exact T1 |]. split.
    + intros m. rewrite K2, K1, elem_of_cons.
      split.
      * intros [[H | [-> H]] | [H1 H2]]; auto.
      * intros [H | [[-> | H1] H2]]; auto.
    + intros m Hm. rewrite (R2 m Hm), (R1 m Hm).
      destruct (decide (m = a)) as [-> | Hne].
      * rewrite (bool_decide_eq_false_2
                   (a ∈ ms /\ _ /\ a ∉ tracked (on_milestone p s a)))
          by tauto.
        assert (Hiff : (a = a /\ ge p (Fin (inject_Z a)) = true /\ a ∉ tracked s)
                       <-> (a ∈ a :: ms /\ ge p (Fin (inject_Z a)) = true
                            /\ a ∉ tracked s)).
        { rewrite elem_of_cons. tauto. }
        rewrite (bool_decide_ext _ _ Hiff). lia.
      * rewrite (bool_decide_eq_false_2
                   (m = a /\ _ /\ a ∉ tracked s)) by tauto.
        assert (Hiff : (m ∈ ms /\ ge p (Fin (inject_Z m)) = true
                        /\ m ∉ tracked (on_milestone p s a))
                       <-> (m ∈ a :: ms /\ ge p (Fin (inject_Z m)) = true
                            /\ m ∉ tracked s)).
        { rewrite elem_of_cons, K1. tauto. }
        rewrite (bool_decide_ext _ _ Hiff). lia.
Qed.

Lemma trackScroll_body_settled (m : metrics) (s : state) :
  settled s -> settled (trackScroll_body m s).
Proof.
  intros Hs. unfold trackScroll_body.
  set (p := Math_round _).
  destruct (gt p (maxScroll s)) eqn:Hgt; [| exact Hs].
  set (s0 := {| maxScroll := p; inThrottle := inThrottle s;
                tracked := tracked s; log := log s |}).
  destruct (milestone_loop_spec p milestones s0 milestones_NoDup)
    as (M & _ & K & R); [auto |].
  intros x Hx. destruct (Hs x Hx) as [Ht Hr].
  rewrite M, (R x Hx). cbn [maxScroll tracked s0].
  change (reported x s0) with (reported x s). rewrite Hr.
  assert (Hup : x ∈ tracked s -> ge p (Fin (inject_Z x)) = true).
  { intros H. apply Ht in H. eapply ge_after_gt; eassumption. }
  pose proof (K x) as Kx. cbn [tracked s0] in Kx.
  split.
  - rewrite Kx. split; [intros [H | [_ H]]; auto | intros H; right; auto].
  - repeat case_bool_decide; try reflexivity; exfalso; tauto.
Qed.

Lemma handle_settled (ev : event) (s : state) :
  settled s -> settled (handle ev s).
Proof.
  intros Hs. destruct ev as [m| |c|href]; cbn [handle].
  - unfold trackScroll. destruct (negb (inThrottle s)); [| exact Hs].
    pose proof (trackScroll_body_settled m s Hs) as H.
    intros x Hx. destruct (H x Hx) as [H1 H2]. split; [exact H1 | exact H2].
  - exact Hs.
  - destruct c; [| exact Hs].
    intros x Hx. destruct (Hs x Hx) as [H1 H2]. split; [exact H1 |].
    rewrite reported_trackEvent, bool_decide_eq_false_2 by discriminate.
    cbn [tracked trackEvent]. rewrite H2. lia.
  - intros x Hx. destruct (Hs x Hx) as [H1 H2]. split; [exact H1 |].
    rewrite reported_trackEvent, bool_decide_eq_false_2 by discriminate.
    cbn [tracked trackEvent]. rewrite H2. lia.
Qed.

Lemma init_settled : settled init.
Proof.
  intros m Hm. unfold milestones in Hm.
  repeat (apply elem_of_cons in Hm as [-> | Hm]); try (inversion Hm; fail);
    (split; [split; [intros H; inversion H | vm_compute; discriminate]
            | reflexivity]).
Qed.

(** X25.  Each scroll-depth milestone (25, 50, 75, 90) is reported exactly
    once, and exactly when the greatest depth has reached it: after any
    sequence of scroll events, throttle timers, form submissions and phone
    clicks, a milestone is flagged if and only if the greatest depth is at
    least that milestone, a flagged milestone has been reported once and
    an unflagged one never. *)
Theorem milestones_reported_once (evs : list event) (m : Z) :
  m ∈ milestones ->
  (m ∈ tracked (run evs init)
   <-> ge (maxScroll (run evs init)) (Fin (inject_Z m)) = true)
  /\ reported m (run evs init)
     = (if bool_decide (m ∈ tracked (run evs init)) then 1 else 0)%nat
  /\ (reported m (run evs init) <= 1)%nat.
Proof.
  intros Hm.
  assert (H : forall s, settled s -> settled (run evs s)).
  { induction evs as [|ev evs IH]; intros s Hs; [exact Hs |].
    change (run (ev :: evs) s) with (run evs (handle ev s)).
    apply IH, handle_settled, Hs. }
  destruct (H init init_settled m Hm) as [H1 H2].
  split; [exact H1 |]. split; [exact H2 |].
  rewrite H2. case_bool_decide; lia.
Qed.

Lemma milestones_reported_once_witness :
  (50%Z ∈ tracked (run [Scroll {| scrollY := Fin 600; scrollHeight := Fin 1800;
                                  innerHeight := Fin 800 |}] init)
   <-> ge (maxScroll (run [Scroll {| scrollY := Fin 600; scrollHeight := Fin 1800;
                                     innerHeight := Fin 800 |}] init))
          (Fin (inject_Z 50)) = true)
  /\ reported 50 (run [Scroll {| scrollY := Fin 600; scrollHeight := Fin 1800;
                                 innerHeight := Fin 800 |}] init)
     = (if bool_decide (50%Z ∈ tracked
                          (run [Scroll {| scrollY := Fin 600;
                                          scrollHeight := Fin 1800;
                                          innerHeight := Fin 800 |}] init))
        then 1 else 0)%nat
  /\ (reported 50 (run [Scroll {| scrollY := Fin 600; scrollHeight := Fin 1800;
                                  innerHeight := Fin 800 |}] init) <= 1)%nat.
Proof.
  apply (milestones_reported_once
           [Scroll {| scrollY := Fin 600; scrollHeight := Fin 1800;
                      innerHeight := Fin 800 |}] 50).
  unfold milestones. set_solver.
Defined.

(** X26.  On a page that cannot scroll (the document is exactly as high as
    the window and the offset is 0) the depth is 0/0: the handler computes
    NaN, which never exceeds the greatest depth, so a scroll event changes
    nothing but the throttle flag: no depth is recorded and no milestone
    reported. *)
Theorem unscrollable_page_records_nothing (h : Q) (s : state) :
  trackScroll_body {| scrollY := Fin 0; scrollHeight := Fin h;
                      innerHeight := Fin h |} s = s
  /\ maxScroll (handle (Scroll {| scrollY := Fin 0; scrollHeight := Fin h;
                                  innerHeight := Fin h |}) s) = maxScroll s
  /\ tracked (handle (Scroll {| scrollY := Fin 0; scrollHeight := Fin h;
                                innerHeight := Fin h |}) s) = tracked s
  /\ log (handle (Scroll {| scrollY := Fin 0; scrollHeight := Fin h;
                            innerHeight := Fin h |}) s) = log s.
Proof.
  assert (Hb : trackScroll_body {| scrollY := Fin 0; scrollHeight := Fin h;
                                   innerHeight := Fin h |} s = s).
  { unfold trackScroll_body, sub, add, neg, div.
    cbn [scrollY scrollHeight innerHeight].
    assert (Hz : Qeq_bool (h + - h) 0 = true) by (apply Qeq_bool_iff; ring).
    rewrite Hz. change (0 ?= 0) with Eq. cbn [mul Math_round]. unfold gt, lt.
    destruct (maxScroll s); reflexivity. }
  split; [exact Hb |].
  cbn [handle]. unfold trackScroll. rewrite Hb.
  destruct (inThrottle s); repeat split; reflexivity.
Qed.

End MilestoneFacts.
